(** * Social_Media_Content_Generator.py: the content-assembly pipeline

    A shallow embedding of the rule-based core of
    [Social_Media_Content_Generator.py]: [ContentGenerator],
    [HashtagSuggester], [ImageIdeaGenerator] and the two page helpers
    [split_title_desc] and [parse_complex_result], followed by the
    properties of the specification that are stated about them.

    A Python [str] is a sequence of code points.  What the interpreter
    takes from the Unicode database ([str.lower], [str.isspace], the
    classes [\w], [\d], [\s] of [re] and case-insensitive matching) is a
    parameter of the development, see [Unicode]. *)

From Stdlib Require Import String Ascii List NArith ZArith Lia Bool Permutation.
Import ListNotations.

(** * Python values *)

Definition char := N.
Definition str := list char.

(** An ASCII literal of the source, as a sequence of code points. *)
Definition lit (x : string) : str := map N_of_ascii (list_ascii_of_string x).
Arguments lit x%_string.

Fixpoint str_eqb (a b : str) : bool :=
  match a, b with
  | [], [] => true
  | x :: a', y :: b' => N.eqb x y && str_eqb a' b'
  | _, _ => false
  end.

(** The exceptions the modelled code could raise, and the outcome of a
    call: a value, an exception, or a loop that is still running when the
    fuel is spent. *)
Inductive exn := KeyError | IndexError | ValueError.

Inductive result (A : Type) :=
| Ok (a : A)
| Raise (e : exn)
| OutOfFuel.
Arguments Ok {A} a.
Arguments Raise {A} e.
Arguments OutOfFuel {A}.

Definition bind {A B} (r : result A) (k : A -> result B) : result B :=
  match r with
  | Ok a => k a
  | Raise e => Raise e
  | OutOfFuel => OutOfFuel
  end.

Notation "x <- e ;; k" := (bind e (fun x => k))
  (at level 61, e at next level, right associativity).

(** The Unicode tables of the interpreter.  [ci_eq p c] says that the
    pattern character [p] matches the text character [c] under
    [re.IGNORECASE].  Two facts about the tables are used: a piece of a
    lower-cased text is left as it is by [str.lower] (the characters
    that lower-casing yields have no lower-case form of their own), and
    a line feed has no case variant. *)
Class Unicode := {
  str_lower : str -> str;
  isspace : char -> bool;
  isdecimal : char -> bool;
  isword : char -> bool;
  ci_eq : char -> char -> bool;
  str_lower_stable :
    forall s pre w post, str_lower s = pre ++ w ++ post -> str_lower w = w;
  ci_eq_newline : forall p, ci_eq p 10%N = true -> p = 10%N
}.

(** * Built-ins *)
Module Py.

(** [len(x)] *)
Definition len {A} (l : list A) : Z := Z.of_nat (length l).

(** [x[:stop]], with Python's reading of a negative [stop]. *)
Definition slice_to {A} (stop : Z) (l : list A) : list A :=
  if (stop <? 0)%Z then firstn (Z.to_nat (len l + stop)) l
  else firstn (Z.to_nat stop) l.

(** truth value of a string *)
Definition truthy {A} (l : list A) : bool :=
  match l with [] => false | _ => true end.

Fixpoint startswith (p s : str) : bool :=
  match p, s with
  | [], _ => true
  | a :: p', b :: s' => N.eqb a b && startswith p' s'
  | _ :: _, [] => false
  end.

(** [sub in s] *)
Fixpoint contains (sub s : str) : bool :=
  startswith sub s ||
  match s with
  | [] => false
  | _ :: t => contains sub t
  end.

(** [x in l] for a list or a set of strings *)
Definition mem (x : str) (l : list str) : bool := existsb (str_eqb x) l.

(** [s.replace(old, new)] *)
Fixpoint replace_go (old new : str) (skip : nat) (s : str) : str :=
  match s with
  | [] => []
  | c :: t =>
      match skip with
      | S k => replace_go old new k t
      | O =>
          if startswith old s
          then new ++ replace_go old new (length old - 1) t
          else c :: replace_go old new 0 t
      end
  end.

Definition replace (s old new : str) : str :=
  match old with
  | [] => new ++ flat_map (fun c => c :: new) s
  | _ => replace_go old new 0 s
  end.

(** [s.split(sep, 1)] for a non-empty [sep]: the text before and after
    the first occurrence of [sep]. *)
Fixpoint partition (sep s : str) : option (str * str) :=
  if startswith sep s then Some ([], skipn (length sep) s)
  else
    match s with
    | [] => None
    | c :: t =>
        match partition sep t with
        | Some (a, b) => Some (c :: a, b)
        | None => None
        end
    end.

Definition split1 (s sep : str) : result (list str) :=
  match sep with
  | [] => Raise ValueError
  | _ =>
      match partition sep s with
      | Some (a, b) => Ok [a; b]
      | None => Ok [s]
      end
  end.

(** [l[i]] for a non-negative index *)
Definition getitem {A} (l : list A) (i : nat) : result A :=
  match nth_error l i with
  | Some x => Ok x
  | None => Raise IndexError
  end.

(** [sep.join(l)] *)
Fixpoint join (sep : str) (l : list str) : str :=
  match l with
  | [] => []
  | [x] => x
  | x :: t => x ++ sep ++ join sep t
  end.

Fixpoint dropwhile {A} (p : A -> bool) (l : list A) : list A :=
  match l with
  | [] => []
  | c :: t => if p c then dropwhile p t else l
  end.

(** [s.strip()] *)
Definition strip `{Unicode} (s : str) : str :=
  rev (dropwhile isspace (rev (dropwhile isspace s))).

(** [template.format(topic=topic)]: a scan of the template with the
    replacement field [{topic}] and the escapes [{{] and [}}].  The
    templates of the program hold nothing else; a field with another
    name is a [KeyError] (the call passes [topic] only), an empty one an
    [IndexError], an unbalanced brace a [ValueError]. *)
Inductive fstate :=
| FText
| FOpen
| FField (name : str)
| FClose.

Definition lbrace : char := 123%N.
Definition rbrace : char := 125%N.

Fixpoint format_go (topic : str) (st : fstate) (t : str) : result str :=
  match t with
  | [] =>
      match st with
      | FText => Ok []
      | _ => Raise ValueError
      end
  | c :: t' =>
      match st with
      | FText =>
          if N.eqb c lbrace then format_go topic FOpen t'
          else if N.eqb c rbrace then format_go topic FClose t'
          else r <- format_go topic FText t' ;; Ok (c :: r)
      | FOpen =>
          if N.eqb c lbrace then r <- format_go topic FText t' ;; Ok (lbrace :: r)
          else if N.eqb c rbrace then Raise IndexError
          else format_go topic (FField [c]) t'
      | FField name =>
          if N.eqb c rbrace then
            if str_eqb name (lit "topic")
            then r <- format_go topic FText t' ;; Ok (topic ++ r)
            else Raise KeyError
          else format_go topic (FField (name ++ [c])) t'
      | FClose =>
          if N.eqb c rbrace then r <- format_go topic FText t' ;; Ok (rbrace :: r)
          else Raise ValueError
      end
  end.

Definition format (template topic : str) : result str :=
  format_go topic FText template.

(** [s.title()] on ASCII text: the first letter of every run of letters
    in upper case, the others in lower case.  It is applied to the
    ASCII style names of [ImageIdeaGenerator] only. *)
Definition is_upper (c : char) : bool := (65 <=? c)%N && (c <=? 90)%N.
Definition is_lower (c : char) : bool := (97 <=? c)%N && (c <=? 122)%N.
Definition to_upper (c : char) : char := if is_lower c then (c - 32)%N else c.
Definition to_lower (c : char) : char := if is_upper c then (c + 32)%N else c.

Fixpoint title_go (in_word : bool) (s : str) : str :=
  match s with
  | [] => []
  | c :: t =>
      if is_upper c || is_lower c
      then (if in_word then to_lower c else to_upper c) :: title_go true t
      else c :: title_go false t
  end.

Definition title (s : str) : str := title_go false s.

(** A [dict] with string keys, in insertion order. *)
Definition dict (V : Type) := list (str * V).

Fixpoint lookup {V} (d : dict V) (k : str) : option V :=
  match d with
  | [] => None
  | (k', v) :: d' => if str_eqb k k' then Some v else lookup d' k
  end.

(** [d.get(k, default)] *)
Definition get {V} (d : dict V) (k : str) (default : V) : V :=
  match lookup d k with
  | Some v => v
  | None => default
  end.

(** [d[k]] *)
Definition subscript {V} (d : dict V) (k : str) : result V :=
  match lookup d k with
  | Some v => Ok v
  | None => Raise KeyError
  end.

(** [d[k] = v] for a key that may be present *)
Fixpoint setitem {V} (d : dict V) (k : str) (v : V) : dict V :=
  match d with
  | [] => [(k, v)]
  | (k', v') :: d' =>
      if str_eqb k k' then (k', v) :: d' else (k', v') :: setitem d' k v
  end.

(** [random.choice(l)]: [r] is the number the generator draws. *)
Definition random_choice {A} (r : nat) (l : list A) : result A :=
  match l with
  | [] => Raise IndexError
  | _ => getitem l (r mod length l)
  end.

Fixpoint remove_nth {A} (i : nat) (l : list A) : list A :=
  match l, i with
  | [], _ => []
  | _ :: t, O => t
  | x :: t, S j => x :: remove_nth j t
  end.

(** [random.sample(pop, k)]: [k] draws without replacement, the
    [i]-th one at the position [rnd i] of what is left. *)
Fixpoint sample_go {A} (rnd : nat -> nat) (i k : nat) (pop : list A) : list A :=
  match k with
  | O => []
  | S k' =>
      match pop with
      | [] => []
      | d :: _ =>
          let j := rnd i mod length pop in
          nth j pop d :: sample_go rnd (S i) k' (remove_nth j pop)
      end
  end.

Definition random_sample {A} (rnd : nat -> nat) (pop : list A) (k : nat)
  : result (list A) :=
  if Nat.ltb (length pop) k then Raise ValueError
  else Ok (sample_go rnd 0 k pop).

(** A [set] of strings: the members, once each.  The order in which
    [list(s)] yields them is fixed by the hashes of the members, which
    the program does not control: [h] stands for the hash. *)
Definition set_add (x : str) (s : list str) : list str :=
  if mem x s then s else s ++ [x].

Definition set_update (s : list str) (xs : list str) : list str :=
  fold_left (fun acc x => set_add x acc) xs s.

Fixpoint insert_by (h : str -> N) (x : str) (l : list str) : list str :=
  match l with
  | [] => [x]
  | y :: t => if (h x <? h y)%N then x :: l else y :: insert_by h x t
  end.

Definition set_to_list (h : str -> N) (s : list str) : list str :=
  fold_right (insert_by h) [] s.

End Py.

(** * The fragment of [re] the program uses

    A pattern is a sequence of atoms: a character class with one of the
    greedy quantifiers, or the assertion [\b].  [match_here] is the
    backtracking matcher: it yields the text that each atom took and the
    text that is left. *)
Module Re.
Section Engine.
Context `{Unicode}.

Inductive quant := One | Opt | Star | Plus.

Inductive atom :=
| Class (p : char -> bool) (q : quant)
| Boundary.

Definition regex := list atom.

Definition matched := option (list str * str).

Definition word_before (prev : option char) : bool :=
  match prev with Some c => isword c | None => false end.

Definition word_at (s : str) : bool :=
  match s with c :: _ => isword c | [] => false end.

Definition at_boundary (prev : option char) (s : str) : bool :=
  xorb (word_before prev) (word_at s).

Definition push (m : str) (r : matched) : matched :=
  match r with
  | Some (gs, rest) => Some (m :: gs, rest)
  | None => None
  end.

Definition extend (c : char) (r : matched) : matched :=
  match r with
  | Some (m :: gs, rest) => Some ((c :: m) :: gs, rest)
  | _ => None
  end.

Definition or_else (r : matched) (alt : matched) : matched :=
  match r with
  | Some _ => r
  | None => alt
  end.

(** The longest run of [p] after which the continuation [k] succeeds. *)
Fixpoint greedy (p : char -> bool) (k : option char -> str -> matched)
    (prev : option char) (s : str) : matched :=
  match s with
  | c :: t =>
      if p c
      then or_else (extend c (greedy p k (Some c) t)) (push [] (k prev s))
      else push [] (k prev s)
  | [] => push [] (k prev s)
  end.

Fixpoint match_here (re : regex) (prev : option char) (s : str) : matched :=
  match re with
  | [] => Some ([], s)
  | Boundary :: re' =>
      if at_boundary prev s then push [] (match_here re' prev s) else None
  | Class p One :: re' =>
      match s with
      | c :: t => if p c then push [c] (match_here re' (Some c) t) else None
      | [] => None
      end
  | Class p Opt :: re' =>
      match s with
      | c :: t =>
          if p c
          then or_else (push [c] (match_here re' (Some c) t))
                       (push [] (match_here re' prev s))
          else push [] (match_here re' prev s)
      | [] => push [] (match_here re' prev s)
      end
  | Class p Star :: re' => greedy p (match_here re') prev s
  | Class p Plus :: re' =>
      match s with
      | c :: t => if p c then extend c (greedy p (match_here re') (Some c) t) else None
      | [] => None
      end
  end.

(** [re.search]: the atoms' texts of the leftmost match. *)
Fixpoint search_go (re : regex) (prev : option char) (s : str) : option (list str) :=
  match match_here re prev s with
  | Some (gs, _) => Some gs
  | None =>
      match s with
      | [] => None
      | c :: t => search_go re (Some c) t
      end
  end.

Definition search (re : regex) (s : str) : option (list str) :=
  search_go re None s.

(** [re.findall] and [re.sub] for a pattern that never matches the
    empty string, which is the case of the two patterns they are called
    with ([word_re_nonempty], [marker_re_nonempty]): the matches are
    found from left to right and do not overlap; [skip] counts the
    characters of the current match still to pass. *)
Fixpoint findall_go (re : regex) (skip : nat) (prev : option char) (s : str)
  : list str :=
  match s with
  | [] => []
  | c :: t =>
      match skip with
      | S k => findall_go re k (Some c) t
      | O =>
          match match_here re prev s with
          | Some (gs, _) =>
              concat gs :: findall_go re (length (concat gs) - 1) (Some c) t
          | None => findall_go re 0 (Some c) t
          end
      end
  end.

Definition findall (re : regex) (s : str) : list str :=
  findall_go re 0 None s.

Fixpoint sub_go (re : regex) (repl : str) (skip : nat) (prev : option char)
    (s : str) : str :=
  match s with
  | [] => []
  | c :: t =>
      match skip with
      | S k => sub_go re repl k (Some c) t
      | O =>
          match match_here re prev s with
          | Some (gs, _) =>
              match length (concat gs) with
              | S n => repl ++ sub_go re repl n (Some c) t
              | O => c :: sub_go re repl 0 (Some c) t
              end
          | None => c :: sub_go re repl 0 (Some c) t
          end
      end
  end.

Definition sub (re : regex) (repl s : str) : str :=
  sub_go re repl 0 None s.

Definition newline : char := 10%N.

(** The pattern of [_extract_keywords]: a word boundary, one or more
    word characters, a word boundary. *)
Definition word_re : regex :=
  [Boundary; Class isword Plus; Boundary].

(** The list-marker pattern of [parse_complex_result]: an optional
    line feed, one or more digits, a dot, any white space. *)
Definition marker_re : regex :=
  [Class (N.eqb newline) Opt; Class isdecimal Plus; Class (N.eqb 46%N) One;
   Class isspace Star].

(** The label pattern of [parse_complex_result] under [re.IGNORECASE]:
    the characters of [key] (none of the four labels holds a special
    character), any run of colons and white space, and as the group
    the rest of the line.  The group is the text of the last atom. *)
Definition label_re (key : str) : regex :=
  map (fun k => Class (ci_eq k) One) key ++
  [Class (fun c => N.eqb c 58%N || isspace c) Star;
   Class (fun c => negb (N.eqb c newline)) Star].

End Engine.
End Re.

(** * class ContentGenerator *)
Module ContentGenerator.
Import Py.

Definition platform_limits : dict Z :=
  [(lit "Twitter", 280%Z); (lit "Facebook", 2000%Z);
   (lit "Instagram", 2200%Z); (lit "LinkedIn", 3000%Z)].

Definition content_templates : dict (list str) :=
  [(lit "promotional",
    [[0xf8ff%N; 0xfc%N; 0xf6%N; 0xc4%N] ++ lit " Exciting news! {topic} is here to revolutionize your experience. Don't miss out on this amazing opportunity!";
     [0x201a%N; 0xfa%N; 0xae%N] ++ lit " Discover the power of {topic}! Join thousands of satisfied customers who have already transformed their lives.";
     [0xf8ff%N; 0xfc%N; 0xe9%N; 0xd8%N] ++ lit " Ready to take your {topic} to the next level? Our solution is exactly what you've been looking for!"]);
   (lit "informative",
    [lit "Did you know that {topic} can significantly impact your daily routine? Here are some key insights to consider.";
     lit "Understanding {topic} is crucial in today's world. Let's explore the facts and benefits together.";
     [0xf8ff%N; 0xfc%N; 0xec%N; 0xe4%N] ++ lit " Research shows that {topic} plays a vital role in modern business. Here's what you need to know."]);
   (lit "question",
    [lit "What's your experience with {topic}? We'd love to hear your thoughts and stories!";
     lit "How has {topic} changed your perspective? Share your insights in the comments below!";
     [0xf8ff%N; 0xfc%N; 0xa7%N; 0xee%N] ++ lit " What would you do if {topic} wasn't available? Let's discuss the alternatives!"])].

(** The suffix of the humorous tone, as the file spells it. *)
Definition humorous_suffix : str :=
  lit " " ++ [0xf8ff%N; 0xfc%N; 0xf2%N; 0xd1%N].

(** Line 96: the pool of the content type, the informative one when
    the type is not a key. *)
Definition select_templates (content_type : str) : result (list str) :=
  informative <- subscript content_templates (lit "informative") ;;
  Ok (get content_templates content_type informative).

(** Lines 95-112: the text before the platform limit is applied.  [r]
    is the draw of [random.choice]. *)
Definition assemble_text (r : nat) (topic content_type tone cta : str)
  : result str :=
  templates <- select_templates content_type ;;
  base_template <- random_choice r templates ;;
  generated_text <- format base_template topic ;;
  let generated_text :=
    if str_eqb tone (lit "humorous") then generated_text ++ humorous_suffix
    else if str_eqb tone (lit "professional")
         then replace generated_text (lit "!") (lit ".")
         else generated_text in
  let generated_text :=
    if truthy cta then generated_text ++ lit " " ++ cta else generated_text in
  Ok generated_text.

(** Lines 114-118. *)
Definition fit_platform (platform : str) (generated_text : str) : str :=
  let platform_limit := get platform_limits platform 2000%Z in
  if (platform_limit <? len generated_text)%Z
  then slice_to (platform_limit - 3) generated_text ++ lit "..."
  else generated_text.

Definition generate_text_post (r : nat)
    (topic content_type platform tone cta : str) : result str :=
  generated_text <- assemble_text r topic content_type tone cta ;;
  Ok (fit_platform platform generated_text).

End ContentGenerator.

(** * class HashtagSuggester *)
Module HashtagSuggester.
Import Py.
Section WithUnicode.
Context `{Unicode}.

Definition hashtag_database : dict (list str) :=
  [(lit "business",
    [lit "#business"; lit "#entrepreneur"; lit "#startup"; lit "#success"; lit "#growth"]);
   (lit "technology",
    [lit "#tech"; lit "#innovation"; lit "#digital"; lit "#AI"; lit "#future"]);
   (lit "marketing",
    [lit "#marketing"; lit "#socialmedia"; lit "#branding"; lit "#content"; lit "#strategy"]);
   (lit "health",
    [lit "#health"; lit "#wellness"; lit "#fitness"; lit "#lifestyle"; lit "#selfcare"]);
   (lit "education",
    [lit "#education"; lit "#learning"; lit "#knowledge"; lit "#skills"; lit "#development"])].

Definition trending_hashtags : list str :=
  [lit "#trending"; lit "#viral"; lit "#popular"; lit "#2025"; lit "#new"].

Definition generic_hashtags : list str :=
  [lit "#content"; lit "#social"; lit "#post"; lit "#share"; lit "#engage"].

(** Lines 153-156: the hashtags of the categories named in the text. *)
Definition category_matches (text : str) : list str :=
  let text_lower := str_lower text in
  fold_left
    (fun suggested_hashtags item =>
       let '(category, hashtags) := item in
       if contains category text_lower
       then set_update suggested_hashtags (slice_to 3 hashtags)
       else suggested_hashtags)
    hashtag_database [].

(** Lines 167-171: one pass of the [for] loop over the generic
    hashtags, left at the [break]. *)
Fixpoint add_generic (count : Z) (generic : list str) (hashtag_list : list str)
  : list str :=
  match generic with
  | [] => hashtag_list
  | hashtag :: rest =>
      if negb (mem hashtag hashtag_list) then
        let hashtag_list := hashtag_list ++ [hashtag] in
        if (count <=? len hashtag_list)%Z then hashtag_list
        else add_generic count rest hashtag_list
      else add_generic count rest hashtag_list
  end.

(** Lines 165-171: the [while] loop; each unit of [fuel] pays for one
    test of its condition. *)
Fixpoint pad (fuel : nat) (count : Z) (hashtag_list : list str)
  : result (list str) :=
  match fuel with
  | O => OutOfFuel
  | S fuel' =>
      if (len hashtag_list <? count)%Z
      then pad fuel' count (add_generic count generic_hashtags hashtag_list)
      else Ok hashtag_list
  end.

(** [h] orders the set when it is turned into a list, [rnd] are the
    draws of [random.sample]. *)
Definition suggest_hashtags (fuel : nat) (h : str -> N) (rnd : nat -> nat)
    (text : str) (count : Z) : result (list str) :=
  let suggested_hashtags := category_matches text in
  drawn <- random_sample rnd trending_hashtags
             (Nat.min 2 (length trending_hashtags)) ;;
  let suggested_hashtags := set_update suggested_hashtags drawn in
  let hashtag_list := slice_to count (set_to_list h suggested_hashtags) in
  hashtag_list <- pad fuel count hashtag_list ;;
  Ok (slice_to count hashtag_list).

End WithUnicode.
End HashtagSuggester.

(** * class ImageIdeaGenerator *)
Module ImageIdeaGenerator.
Import Py.
Section WithUnicode.
Context `{Unicode}.

Definition image_styles : list str :=
  [lit "professional photography"; lit "minimalist design";
   lit "vibrant colors"; lit "modern illustration"; lit "infographic style"].

Definition image_elements : list str :=
  [lit "people working together"; lit "technology devices";
   lit "abstract concepts"; lit "nature elements"; lit "geometric shapes"].

Definition common_words : list str :=
  [lit "the"; lit "a"; lit "an"; lit "and"; lit "or"; lit "but"; lit "in";
   lit "on"; lit "at"; lit "to"; lit "for"; lit "of"; lit "with"; lit "by"].

Definition _extract_keywords (text : str) : list str :=
  let words := Re.findall Re.word_re (str_lower text) in
  let keywords :=
    filter (fun word => (3 <? len word)%Z && negb (mem word common_words)) words in
  slice_to 5 keywords.

(** Lines 214-218. *)
Definition make_idea (keywords : list str) (style element : str) : str :=
  if truthy keywords
  then title style ++ lit " featuring " ++ element ++ lit " related to "
         ++ join (lit ", ") (slice_to 2 keywords)
  else title style ++ lit " featuring " ++ element.

(** Lines 213-222: the inner loop, left at the [break]. *)
Fixpoint for_elements (keywords : list str) (style : str)
    (elements : list str) (ideas : list str) : list str :=
  match elements with
  | [] => ideas
  | element :: rest =>
      let ideas := ideas ++ [make_idea keywords style element] in
      if (5 <=? len ideas)%Z then ideas
      else for_elements keywords style rest ideas
  end.

(** Lines 212-224: the outer loop. *)
Fixpoint for_styles (keywords : list str) (styles : list str)
    (ideas : list str) : list str :=
  match styles with
  | [] => ideas
  | style :: rest =>
      let ideas := for_elements keywords style (slice_to 2 image_elements) ideas in
      if (5 <=? len ideas)%Z then ideas
      else for_styles keywords rest ideas
  end.

Definition generate_ideas (text_post : str) : list str :=
  let keywords := _extract_keywords text_post in
  for_styles keywords (slice_to 3 image_styles) [].

End WithUnicode.
End ImageIdeaGenerator.

(** * The helpers of the generator page *)
Module Page.
Import Py.
Section WithUnicode.
Context `{Unicode}.

(** Line 654, with the code points the file holds. *)
Definition separators : list str :=
  [lit ": "; lit " - ";
   lit " " ++ [0x201a%N; 0xc4%N; 0xec%N] ++ lit " ";
   lit " " ++ [0x201a%N; 0xc4%N; 0xee%N] ++ lit " ";
   lit ". "].

Fixpoint split_on (seps : list str) (line : str) : result (str * option str) :=
  match seps with
  | [] => Ok (strip line, None)
  | sep :: rest =>
      if contains sep line then
        parts <- split1 line sep ;;
        title <- getitem parts 0 ;;
        desc <- getitem parts 1 ;;
        Ok (strip title, Some (strip desc))
      else split_on rest line
  end.

Definition split_title_desc (line : str) : result (str * option str) :=
  split_on separators line.

Definition labels : list str :=
  [lit "Caption"; lit "Post Idea"; lit "Hashtags"; lit "Visual/Design Suggestion"].

(** Lines 689-692: the body of the loop over the keys. *)
Definition parse_key (text : str) (result : dict str) (key : str) : dict str :=
  match Re.search (Re.label_re key) text with
  | Some gs => setitem result key (strip (last gs []))
  | None => result
  end.

Definition parse_complex_result (text : str) : dict str :=
  let result := map (fun key => (key, @nil char)) labels in
  let text := Re.sub Re.marker_re [Re.newline] text in
  fold_left (parse_key text) (map fst result) result.

End WithUnicode.
End Page.

(** * Tables for evaluation

    The classes and case pairs of the code points below 128 as CPython
    has them, and its white space over all of Unicode; the other code
    points are left without case, digit or word character.  The general
    theorems below hold for every instance of [Unicode]; this one serves
    to run the functions on ASCII text. *)
Module AsciiTables.
Import Py.

Definition space_points : list char :=
  [9; 10; 11; 12; 13; 28; 29; 30; 31; 32; 0x85; 0xa0; 0x1680; 0x2028;
   0x2029; 0x202f; 0x205f; 0x3000]%N.

Definition isspace (c : char) : bool :=
  existsb (N.eqb c) space_points || ((0x2000 <=? c)%N && (c <=? 0x200a)%N).

Definition isdecimal (c : char) : bool := (48 <=? c)%N && (c <=? 57)%N.

Definition isword (c : char) : bool :=
  isdecimal c || is_upper c || is_lower c || N.eqb c 95%N.

Definition ci_eq (p c : char) : bool := N.eqb (to_lower p) (to_lower c).

Lemma ci_eq_newline (p : char) : ci_eq p 10%N = true -> p = 10%N.
Proof.
  unfold ci_eq, to_lower, is_upper; intros E.
  apply N.eqb_eq in E; cbn in E.
  destruct ((65 <=? p)%N && (p <=? 90)%N) eqn:U; [|exact E].
  apply andb_prop in U; destruct U as [U _]; apply N.leb_le in U; lia.
Qed.

Lemma to_lower_idem (c : char) : to_lower (to_lower c) = to_lower c.
Proof.
  unfold to_lower, is_upper.
  destruct ((65 <=? c)%N && (c <=? 90)%N) eqn:U; [|now rewrite U].
  apply andb_prop in U; destruct U as [U1 U2].
  apply N.leb_le in U1, U2.
  replace ((c + 32 <=? 90)%N) with false by (symmetry; apply N.leb_gt; lia).
  now rewrite andb_false_r.
Qed.

Lemma lower_stable (s pre w post : str) :
  map to_lower s = pre ++ w ++ post -> map to_lower w = w.
Proof.
  intros E.
  assert (F : Forall (fun c => to_lower c = c) (map to_lower s)).
  { apply Forall_forall; intros c I; apply in_map_iff in I.
    destruct I as (x & <- & _); apply to_lower_idem. }
  rewrite E in F; apply Forall_app in F; destruct F as [_ F].
  apply Forall_app in F; destruct F as [F _].
  clear E; induction F as [|c w Hc _ IH]; cbn [map]; [reflexivity | now rewrite Hc, IH].
Qed.

Definition tables : Unicode :=
  Build_Unicode (map to_lower) isspace isdecimal isword ci_eq
    lower_stable ci_eq_newline.
End AsciiTables.

(** * Facts about the built-ins *)
Module PyFacts.
Import Py.

Lemma str_eqb_eq (a b : str) : str_eqb a b = true <-> a = b.
Proof.
  revert b; induction a as [|x a IH]; intros [|y b]; simpl;
    try (split; [discriminate | congruence]); [tauto|].
  rewrite andb_true_iff, N.eqb_eq, IH; split; [intros [-> ->] | intros [= -> ->]]; auto.
Qed.

Lemma str_eqb_neq (a b : str) : str_eqb a b = false <-> a <> b.
Proof.
  rewrite <- str_eqb_eq; destruct (str_eqb a b); split; congruence.
Qed.

Lemma len_app {A} (a b : list A) : len (a ++ b) = (len a + len b)%Z.
Proof. unfold len; rewrite length_app; lia. Qed.

Lemma len_nonneg {A} (l : list A) : (0 <= len l)%Z.
Proof. unfold len; lia. Qed.

Lemma slice_to_nonneg {A} (stop : Z) (l : list A) :
  (0 <= stop)%Z -> slice_to stop l = firstn (Z.to_nat stop) l.
Proof.
  intros Hs; unfold slice_to.
  destruct (stop <? 0)%Z eqn:E; [apply Z.ltb_lt in E; lia | reflexivity].
Qed.

Lemma len_slice_to {A} (stop : Z) (l : list A) :
  (0 <= stop)%Z -> len (slice_to stop l) = Z.min stop (len l).
Proof.
  intros Hs; rewrite slice_to_nonneg by assumption.
  unfold len; rewrite length_firstn; lia.
Qed.

Lemma slice_to_all {A} (stop : Z) (l : list A) :
  (len l <= stop)%Z -> slice_to stop l = l.
Proof.
  intros Hs; rewrite slice_to_nonneg by (unfold len in Hs; lia).
  apply firstn_all2; unfold len in Hs; lia.
Qed.

Lemma startswith_app (p r : str) : startswith p (p ++ r) = true.
Proof.
  induction p as [|a p IH]; simpl; [reflexivity|].
  now rewrite N.eqb_refl, IH.
Qed.

Lemma startswith_inv (p s : str) :
  startswith p s = true -> s = p ++ skipn (length p) s.
Proof.
  revert s; induction p as [|a p IH]; intros s E; simpl in *; [reflexivity|].
  destruct s as [|b s]; [discriminate|].
  apply andb_prop in E; destruct E as [E1 E2].
  apply N.eqb_eq in E1; subst b; simpl.
  f_equal; now apply IH.
Qed.

Lemma mem_In (x : str) (l : list str) : mem x l = true <-> In x l.
Proof.
  unfold mem; rewrite existsb_exists; split.
  - intros (y & Hy & E); apply str_eqb_eq in E; now subst.
  - intros Hx; exists x; split; [assumption | now apply str_eqb_eq].
Qed.

Lemma mem_not_In (x : str) (l : list str) : mem x l = false <-> ~ In x l.
Proof.
  rewrite <- mem_In; destruct (mem x l); split; congruence.
Qed.

(** An occurrence of [sub] in [s]. *)
Definition occurs (sub s : str) : Prop :=
  exists pre post, s = pre ++ sub ++ post.

Lemma contains_occurs (sub s : str) : contains sub s = true <-> occurs sub s.
Proof.
  split.
  - induction s as [|c t IH]; simpl; intros E.
    + rewrite orb_false_r in E; apply startswith_inv in E.
      now exists [], (skipn (length sub) []).
    + apply orb_prop in E; destruct E as [E|E].
      * apply startswith_inv in E; now exists [], (skipn (length sub) (c :: t)).
      * destruct (IH E) as (pre & post & ->); now exists (c :: pre), post.
  - intros (pre & post & ->).
    induction pre as [|c pre IH]; simpl.
    + pose proof (startswith_app sub post) as S.
      destruct (sub ++ post); simpl; now rewrite S.
    + rewrite IH; apply orb_true_r.
Qed.

(** [partition] cuts at the first occurrence. *)
Lemma partition_Some (sep s a b : str) :
  partition sep s = Some (a, b) ->
  s = a ++ sep ++ b /\
  forall a' b', s = a' ++ sep ++ b' -> length a <= length a'.
Proof.
  revert a b; induction s as [|c t IH]; intros a b E; simpl in E.
  - destruct (startswith sep []) eqn:S; [|discriminate].
    inversion E; subst; clear E; split; [|simpl; lia].
    now apply startswith_inv in S.
  - destruct (startswith sep (c :: t)) eqn:S.
    + inversion E; subst; clear E; split; [|simpl; lia].
      now apply startswith_inv in S.
    + destruct (partition sep t) as [[a0 b0]|] eqn:P; [|discriminate].
      inversion E; subst; clear E.
      destruct (IH _ _ eq_refl) as [-> Hmin]; split; [reflexivity|].
      intros a' b' E'; destruct a' as [|c' a'].
      * simpl in E'; rewrite E', startswith_app in S; discriminate.
      * simpl in E'; inversion E'; subst.
        simpl; apply le_n_S; eapply Hmin; eassumption.
Qed.

Lemma partition_None (sep s : str) :
  partition sep s = None -> contains sep s = false.
Proof.
  induction s as [|c t IH]; simpl.
  - destruct (startswith sep []); [discriminate | reflexivity].
  - destruct (startswith sep (c :: t)); [discriminate|].
    destruct (partition sep t) as [[a b]|]; [discriminate|].
    intros _; now apply IH.
Qed.

(** [replace] of one character by another is a map. *)
Lemma replace_char (s : str) (a b : char) :
  replace s [a] [b] = map (fun c => if N.eqb a c then b else c) s.
Proof.
  unfold replace; induction s as [|c t IH]; simpl; [reflexivity|].
  rewrite andb_true_r; destruct (N.eqb a c); simpl; now rewrite IH.
Qed.

Definition no_brace (s : str) : bool :=
  forallb (fun c => negb (N.eqb c lbrace) && negb (N.eqb c rbrace)) s.

Lemma format_go_text (topic s : str) :
  no_brace s = true -> format_go topic FText s = Ok s.
Proof.
  induction s as [|c t IH]; simpl; [reflexivity|]; intros E.
  apply andb_prop in E; destruct E as [E1 E2].
  apply andb_prop in E1; destruct E1 as [L R].
  apply negb_true_iff in L, R; rewrite L, R, (IH E2); reflexivity.
Qed.

Definition placeholder : str := lit "{topic}".

Lemma format_go_placeholder (topic post : str) :
  format_go topic FText (placeholder ++ post) =
  r <- format_go topic FText post ;; Ok (topic ++ r).
Proof. reflexivity. Qed.

(** A template with the one field [{topic}]: the topic takes its place. *)
Lemma format_one_field (topic pre post : str) :
  no_brace pre = true -> no_brace post = true ->
  format (pre ++ placeholder ++ post) topic = Ok (pre ++ topic ++ post).
Proof.
  intros Hpre Hpost; unfold format.
  induction pre as [|c t IH].
  - rewrite !app_nil_l, format_go_placeholder.
    now rewrite (format_go_text topic post Hpost).
  - cbn [no_brace forallb] in Hpre.
    apply andb_prop in Hpre; destruct Hpre as [E1 E2].
    apply andb_prop in E1; destruct E1 as [L R].
    apply negb_true_iff in L, R.
    rewrite <- !app_comm_cons; cbn [format_go].
    rewrite L, R, (IH E2); reflexivity.
Qed.

Definition one_field (template : str) : bool :=
  match partition placeholder template with
  | Some (pre, post) => no_brace pre && no_brace post
  | None => false
  end.

Lemma format_ok (template topic : str) :
  one_field template = true ->
  exists pre post,
    template = pre ++ placeholder ++ post /\
    format template topic = Ok (pre ++ topic ++ post).
Proof.
  unfold one_field; intros E.
  destruct (partition placeholder template) as [[pre post]|] eqn:P; [|discriminate].
  apply andb_prop in E; destruct E as [E1 E2].
  apply partition_Some in P; destruct P as [-> _].
  exists pre, post; split; [reflexivity | now apply format_one_field].
Qed.

Lemma random_choice_In {A} (r : nat) (l : list A) :
  l <> [] -> exists x, random_choice r l = Ok x /\ In x l.
Proof.
  intros Hl; destruct l as [|a l]; [congruence|].
  unfold random_choice, getitem.
  destruct (nth_error (a :: l) (r mod length (a :: l))) as [x|] eqn:E.
  - exists x; split; [reflexivity | eapply nth_error_In; eassumption].
  - apply nth_error_None in E.
    pose proof (Nat.mod_upper_bound r (length (a :: l))) as B.
    simpl in *; lia.
Qed.

End PyFacts.

(** * Facts about dictionaries *)
Module DictFacts.
Import Py PyFacts.
Section Dict.
Context {V : Type}.
Implicit Types (d : dict V) (k : str) (v : V).

Lemma lookup_Some_In d k v : lookup d k = Some v -> In (k, v) d.
Proof.
  induction d as [|[k' v'] d IH]; simpl; [discriminate|].
  destruct (str_eqb k k') eqn:E.
  - apply str_eqb_eq in E; intros [= ->]; subst; now left.
  - intros L; right; now apply IH.
Qed.

Lemma lookup_None d k : lookup d k = None <-> ~ In k (map fst d).
Proof.
  induction d as [|[k' v'] d IH]; simpl; [tauto|].
  destruct (str_eqb k k') eqn:E.
  - apply str_eqb_eq in E; subst; split; [discriminate | tauto].
  - apply str_eqb_neq in E; rewrite IH; split; [intros N [C|C] | ]; auto.
Qed.

Lemma In_lookup d k v :
  NoDup (map fst d) -> In (k, v) d -> lookup d k = Some v.
Proof.
  induction d as [|[k' v'] d IH]; simpl; [tauto|].
  intros ND [E|I]; inversion ND as [|? ? Nin ND']; subst.
  - inversion E; subst.
    replace (str_eqb k k) with true by (symmetry; now apply str_eqb_eq).
    reflexivity.
  - destruct (str_eqb k k') eqn:E.
    + apply str_eqb_eq in E; subst; exfalso; apply Nin.
      change k' with (fst (k', v)); now apply in_map.
    + now apply IH.
Qed.

Lemma get_cases d k default :
  (lookup d k = None /\ get d k default = default) \/
  (exists v, lookup d k = Some v /\ get d k default = v /\ In (k, v) d).
Proof.
  unfold get; destruct (lookup d k) as [v|] eqn:L; [right | left; tauto].
  exists v; repeat split; now apply lookup_Some_In.
Qed.
End Dict.
End DictFacts.

(** * ContentGenerator: the properties *)
Module ContentGeneratorFacts.
Import Py PyFacts DictFacts ContentGenerator.

Lemma platform_limit_ge_3 (platform : str) :
  (3 <= get platform_limits platform 2000)%Z.
Proof.
  destruct (get_cases platform_limits platform 2000%Z)
    as [[_ ->]|(v & _ & -> & I)]; [lia|].
  simpl in I.
  repeat (destruct I as [I|I]; [inversion I; lia|]); contradiction.
Qed.

(** What [fit_platform] returns. *)
Lemma fit_platform_spec (platform text : str) :
  let limit := get platform_limits platform 2000%Z in
  (len (fit_platform platform text) <= limit)%Z /\
  (((len text <= limit)%Z /\ fit_platform platform text = text) \/
   ((limit < len text)%Z /\
    fit_platform platform text = firstn (Z.to_nat (limit - 3)) text ++ lit "..." /\
    len (firstn (Z.to_nat (limit - 3)) text) = (limit - 3)%Z /\
    len (fit_platform platform text) = limit)).
Proof.
  intros limit; unfold fit_platform; fold limit.
  pose proof (platform_limit_ge_3 platform) as L3; fold limit in L3.
  destruct (limit <? len text)%Z eqn:E.
  - apply Z.ltb_lt in E.
    rewrite slice_to_nonneg by lia.
    assert (Hf : len (firstn (Z.to_nat (limit - 3)) text) = (limit - 3)%Z).
    { unfold len in *; rewrite length_firstn; lia. }
    assert (Hl : len (firstn (Z.to_nat (limit - 3)) text ++ lit "...") = limit).
    { rewrite len_app, Hf; cbn; lia. }
    split; [lia|]; right; repeat split; assumption.
  - apply Z.ltb_ge in E; split; [assumption|]; left; split; [assumption | reflexivity].
Qed.

Lemma keys_NoDup : NoDup (map fst content_templates).
Proof.
  cbn [map fst content_templates].
  repeat (constructor; [cbn [In]; intros C;
    repeat (destruct C as [C|C]; [discriminate C|]); exact C|]).
  constructor.
Qed.

Lemma pools_well_formed :
  forallb (fun pool => truthy pool && forallb one_field pool)
          (map snd content_templates) = true.
Proof. vm_compute; reflexivity. Qed.

Lemma subscript_informative :
  exists informative,
    subscript content_templates (lit "informative") = Ok informative /\
    In (lit "informative", informative) content_templates.
Proof.
  unfold subscript.
  destruct (lookup content_templates (lit "informative")) as [v|] eqn:L.
  - exists v; split; [reflexivity | now apply lookup_Some_In].
  - vm_compute in L; discriminate.
Qed.

(** The pool that line 96 selects. *)
Lemma select_templates_spec (content_type : str) :
  exists pool,
    select_templates content_type = Ok pool /\
    In pool (map snd content_templates) /\
    ((In content_type (map fst content_templates) /\
      In (content_type, pool) content_templates) \/
     (~ In content_type (map fst content_templates) /\
      In (lit "informative", pool) content_templates)).
Proof.
  unfold select_templates.
  destruct subscript_informative as (inf & -> & I); cbn [bind].
  destruct (get_cases content_templates content_type inf)
    as [[N ->]|(v & L & -> & I')].
  - exists inf; split; [reflexivity|]; split.
    + change inf with (snd (lit "informative", inf)); now apply in_map.
    + right; split; [now apply lookup_None | assumption].
  - exists v; split; [reflexivity|]; split.
    + change v with (snd (content_type, v)); now apply in_map.
    + left; split; [|assumption].
      change content_type with (fst (content_type, v)); now apply in_map.
Qed.

Lemma assemble_text_ok (r : nat) (topic content_type tone cta : str) :
  exists text, assemble_text r topic content_type tone cta = Ok text.
Proof.
  unfold assemble_text.
  destruct (select_templates_spec content_type) as (pool & -> & I & _); cbn [bind].
  pose proof pools_well_formed as W.
  rewrite forallb_forall in W; specialize (W pool I).
  apply andb_prop in W; destruct W as [T F].
  destruct (random_choice_In r pool) as (t & -> & It); [now destruct pool|].
  cbn [bind]; rewrite forallb_forall in F.
  destruct (format_ok t topic (F t It)) as (pre & post & _ & ->); cbn [bind].
  eexists; reflexivity.
Qed.

(** C1. For every topic, content type, tone, call to action and draw of
    the template, and for every platform (the limit of an unknown one
    is the default 2000), [generate_text_post] returns a text no longer
    than the platform limit: the assembled text itself when it fits,
    and otherwise its first limit - 3 characters followed by three
    dots, which is exactly limit characters long. *)
Theorem generate_text_post_within_limit
    (r : nat) (topic content_type platform tone cta : str) :
  let limit := get platform_limits platform 2000%Z in
  exists assembled post,
    assemble_text r topic content_type tone cta = Ok assembled /\
    generate_text_post r topic content_type platform tone cta = Ok post /\
    (In platform (map fst platform_limits) \/ limit = 2000%Z) /\
    (len post <= limit)%Z /\
    (((len assembled <= limit)%Z /\ post = assembled) \/
     ((limit < len assembled)%Z /\
      post = firstn (Z.to_nat (limit - 3)) assembled ++ lit "..." /\
      len (firstn (Z.to_nat (limit - 3)) assembled) = (limit - 3)%Z /\
      len post = limit)).
Proof.
  intros limit; unfold generate_text_post.
  destruct (assemble_text_ok r topic content_type tone cta) as (text & E).
  exists text, (fit_platform platform text); rewrite E; cbn [bind].
  split; [reflexivity|]; split; [reflexivity|]; split.
  - destruct (get_cases platform_limits platform 2000%Z)
      as [[_ D]|(v & _ & _ & I)]; [now right | left].
    change platform with (fst (platform, v)); now apply in_map.
  - exact (fit_platform_spec platform text).
Qed.

(** C4. The substitution of the professional tone, every exclamation
    mark replaced by a full stop, is idempotent. *)
Theorem professional_replace_idempotent (s : str) :
  replace (replace s (lit "!") (lit ".")) (lit "!") (lit ".") =
  replace s (lit "!") (lit ".").
Proof.
  change (lit "!") with [33%N]; change (lit ".") with [46%N].
  rewrite !replace_char, map_map.
  apply map_ext; intros c.
  destruct (N.eqb 33 c) eqn:E; [reflexivity | now rewrite E].
Qed.

End ContentGeneratorFacts.

(** * Facts about the matcher *)
Module ReFacts.
Import Py PyFacts Re.
Section Matcher.
Context `{Unicode}.

Lemma push_Some m r gs rest :
  push m r = Some (gs, rest) ->
  exists gs', r = Some (gs', rest) /\ gs = m :: gs'.
Proof.
  destruct r as [[gs' rest']|]; simpl; [|discriminate].
  intros [= <- <-]; now exists gs'.
Qed.

Lemma extend_Some c r gs rest :
  extend c r = Some (gs, rest) ->
  exists m gs', r = Some (m :: gs', rest) /\ gs = (c :: m) :: gs'.
Proof.
  destruct r as [[[|m gs'] rest']|]; simpl; try discriminate.
  intros [= <- <-]; now exists m, gs'.
Qed.

Lemma or_else_Some r alt x :
  or_else r alt = Some x -> r = Some x \/ alt = Some x.
Proof. destruct r; simpl; auto. Qed.

(** What a successful match says about the text: the atoms' texts, in
    order, and what is left make up the input. *)
Definition splits (s : str) (gs : list str) (rest : str) : Prop :=
  s = concat gs ++ rest.

Lemma greedy_splits p k :
  (forall prev s gs rest, k prev s = Some (gs, rest) -> splits s gs rest) ->
  forall s prev gs rest,
    greedy p k prev s = Some (gs, rest) -> splits s gs rest.
Proof.
  intros Hk; induction s as [|c t IH]; intros prev gs rest; simpl.
  - intros E; apply push_Some in E; destruct E as (gs' & E & ->).
    apply Hk in E; exact E.
  - destruct (p c).
    + intros E; apply or_else_Some in E; destruct E as [E|E].
      * apply extend_Some in E; destruct E as (m & gs' & E & ->).
        apply IH in E; unfold splits in *; simpl in *; now rewrite E.
      * apply push_Some in E; destruct E as (gs' & E & ->).
        apply Hk in E; exact E.
    + intros E; apply push_Some in E; destruct E as (gs' & E & ->).
      apply Hk in E; exact E.
Qed.

Lemma match_here_splits re :
  forall prev s gs rest,
    match_here re prev s = Some (gs, rest) -> splits s gs rest.
Proof.
  induction re as [|a re IH]; intros prev s gs rest; simpl.
  - intros [= <- <-]; reflexivity.
  - destruct a as [p q|].
    + destruct q.
      * destruct s as [|c t]; [discriminate|].
        destruct (p c); [|discriminate].
        intros E; apply push_Some in E; destruct E as (gs' & E & ->).
        apply IH in E; unfold splits in *; simpl; now rewrite E.
      * assert (Hskip : push [] (match_here re prev s) = Some (gs, rest) ->
                        splits s gs rest).
        { intros E; apply push_Some in E; destruct E as (gs' & E & ->).
          apply IH in E; exact E. }
        destruct s as [|c t]; [exact Hskip|].
        destruct (p c); [|exact Hskip].
        intros E; apply or_else_Some in E; destruct E as [E|E]; [|auto].
        apply push_Some in E; destruct E as (gs' & E & ->).
        apply IH in E; unfold splits in *; simpl; now rewrite E.
      * apply greedy_splits; exact IH.
      * destruct s as [|c t]; [discriminate|].
        destruct (p c); [|discriminate].
        intros E; apply extend_Some in E; destruct E as (m & gs' & E & ->).
        apply (greedy_splits p _ IH) in E.
        unfold splits in *; simpl in *; now rewrite E.
    + destruct (at_boundary prev s); [|discriminate].
      intros E; apply push_Some in E; destruct E as (gs' & E & ->).
      apply IH in E; exact E.
Qed.

(** A pattern with an atom that takes at least one character does not
    match the empty string. *)
Definition takes_one (a : atom) : bool :=
  match a with
  | Class _ One | Class _ Plus => true
  | _ => false
  end.

Lemma greedy_nonempty p k :
  (forall prev s gs rest, k prev s = Some (gs, rest) -> concat gs <> []) ->
  forall s prev gs rest,
    greedy p k prev s = Some (gs, rest) -> concat gs <> [].
Proof.
  intros Hk; induction s as [|c t IH]; intros prev gs rest; simpl.
  - intros E; apply push_Some in E; destruct E as (gs' & E & ->).
    simpl; eapply Hk; eassumption.
  - destruct (p c).
    + intros E; apply or_else_Some in E; destruct E as [E|E].
      * apply extend_Some in E; destruct E as (m & gs' & E & ->).
        simpl; discriminate.
      * apply push_Some in E; destruct E as (gs' & E & ->).
        simpl; eapply Hk; eassumption.
    + intros E; apply push_Some in E; destruct E as (gs' & E & ->).
      simpl; eapply Hk; eassumption.
Qed.

Lemma match_here_nonempty re :
  existsb takes_one re = true ->
  forall prev s gs rest,
    match_here re prev s = Some (gs, rest) -> concat gs <> [].
Proof.
  induction re as [|a re IH]; simpl; [discriminate|].
  intros T prev s gs rest.
  destruct a as [p q|]; simpl in T.
  - destruct q; simpl in T.
    + destruct s as [|c t]; [discriminate|].
      destruct (p c); [|discriminate].
      intros E; apply push_Some in E; destruct E as (gs' & E & ->).
      simpl; discriminate.
    + assert (Hskip : push [] (match_here re prev s) = Some (gs, rest) ->
                      concat gs <> []).
      { intros E; apply push_Some in E; destruct E as (gs' & E & ->).
        simpl; eapply IH; eassumption. }
      destruct s as [|c t]; [exact Hskip|].
      destruct (p c); [|exact Hskip].
      intros E; apply or_else_Some in E; destruct E as [E|E]; [|auto].
      apply push_Some in E; destruct E as (gs' & E & ->).
      simpl; discriminate.
    + apply greedy_nonempty; intros; eapply IH; eassumption.
    + destruct s as [|c t]; [discriminate|].
      destruct (p c); [|discriminate].
      intros E; apply extend_Some in E; destruct E as (m & gs' & E & ->).
      simpl; discriminate.
  - destruct (at_boundary prev s); [|discriminate].
    intros E; apply push_Some in E; destruct E as (gs' & E & ->).
    simpl; eapply IH; eassumption.
Qed.

Lemma word_re_nonempty prev s gs rest :
  match_here word_re prev s = Some (gs, rest) -> concat gs <> [].
Proof. now apply match_here_nonempty. Qed.

Lemma marker_re_nonempty prev s gs rest :
  match_here marker_re prev s = Some (gs, rest) -> concat gs <> [].
Proof. now apply match_here_nonempty. Qed.

(** Every text that [findall] returns is a piece of the input. *)
Lemma findall_go_occurs re w :
  forall s skip prev, In w (findall_go re skip prev s) -> occurs w s.
Proof.
  induction s as [|c t IH]; intros skip prev; simpl; [tauto|].
  assert (Htail : forall k p, In w (findall_go re k p t) -> occurs w (c :: t)).
  { intros k p I; destruct (IH _ _ I) as (pre & post & ->).
    now exists (c :: pre), post. }
  destruct skip as [|k]; [|apply Htail].
  destruct (match_here re prev (c :: t)) as [[gs rest]|] eqn:M; [|apply Htail].
  intros [<-|I]; [|eapply Htail; eassumption].
  apply match_here_splits in M; exists [], rest; exact M.
Qed.

Lemma findall_occurs re w s : In w (findall re s) -> occurs w s.
Proof. apply findall_go_occurs. Qed.

(** Where [search] succeeds, the pattern matches at some position. *)
Lemma search_go_Some re :
  forall s prev gs,
    search_go re prev s = Some gs ->
    exists pre s' prev' rest,
      s = pre ++ s' /\ match_here re prev' s' = Some (gs, rest).
Proof.
  induction s as [|c t IH]; intros prev gs; simpl.
  - destruct (match_here re prev []) as [[gs' rest]|] eqn:M; [|discriminate].
    intros [= <-]; now exists [], [], prev, rest.
  - destruct (match_here re prev (c :: t)) as [[gs' rest]|] eqn:M.
    + intros [= <-]; now exists [], (c :: t), prev, rest.
    + intros E; destruct (IH _ _ E) as (pre & s' & prev' & rest & -> & M').
      now exists (c :: pre), s', prev', rest.
Qed.

End Matcher.
End ReFacts.

(** * ImageIdeaGenerator: the properties *)
Module ImageIdeaGeneratorFacts.
Import Py PyFacts ReFacts ImageIdeaGenerator.
Section WithUnicode.
Context `{Unicode}.

Lemma In_slice_to {A} (stop : Z) (l : list A) (x : A) :
  In x (slice_to stop l) -> In x l.
Proof.
  unfold slice_to; destruct (stop <? 0)%Z; intros I;
    match type of I with In _ (firstn ?n _) =>
      rewrite <- (firstn_skipn n l) end;
    apply in_or_app; now left.
Qed.

(** C7. The keywords of a text: none is a stop word, none has three
    characters or fewer, each one is in lower case (it is a piece of
    the lower-cased text, which [str.lower] leaves as it is), and there
    are at most five of them. *)
Theorem extract_keywords_filtered (text : str) :
  Forall (fun word =>
            (3 < len word)%Z /\
            ~ In word common_words /\
            occurs word (str_lower text) /\
            str_lower word = word)
         (_extract_keywords text) /\
  (len (_extract_keywords text) <= 5)%Z.
Proof.
  unfold _extract_keywords; split.
  - apply Forall_forall; intros word I.
    apply In_slice_to, filter_In in I; destruct I as [I F].
    apply andb_prop in F; destruct F as [L C].
    apply Z.ltb_lt in L; apply negb_true_iff, mem_not_In in C.
    apply findall_occurs in I.
    repeat split; try assumption.
    destruct I as (pre & post & E).
    eapply str_lower_stable; eassumption.
  - rewrite len_slice_to by lia; lia.
Qed.

(** The six candidates of the two loops, in the order of the loops. *)
Definition candidates (keywords : list str) : list str :=
  flat_map
    (fun style => map (make_idea keywords style) (firstn 2 image_elements))
    (firstn 3 image_styles).

(** C10. [generate_ideas] returns exactly five ideas for every text,
    with or without keywords: the first five of the six candidates
    that three styles and two elements give. *)
Theorem generate_ideas_five (text_post : str) :
  len (generate_ideas text_post) = 5%Z /\
  len (candidates (_extract_keywords text_post)) = 6%Z /\
  generate_ideas text_post =
    firstn 5 (candidates (_extract_keywords text_post)).
Proof.
  unfold generate_ideas.
  generalize (_extract_keywords text_post); intros keywords.
  repeat split; reflexivity.
Qed.

End WithUnicode.
End ImageIdeaGeneratorFacts.

(** * The page helpers: the properties *)
Module PageFacts.
Import Py PyFacts DictFacts Re ReFacts Page.

Lemma lookup_setitem_eq {V} (d : dict V) k v : lookup (setitem d k v) k = Some v.
Proof.
  induction d as [|[k' v'] d IH]; simpl.
  - now replace (str_eqb k k) with true by (symmetry; now apply str_eqb_eq).
  - destruct (str_eqb k k') eqn:E; simpl; rewrite E; [reflexivity | exact IH].
Qed.

Lemma lookup_setitem_neq {V} (d : dict V) k k' v :
  k <> k' -> lookup (setitem d k v) k' = lookup d k'.
Proof.
  intros N; induction d as [|[k0 v0] d IH]; simpl.
  - apply not_eq_sym in N; apply str_eqb_neq in N; now rewrite N.
  - destruct (str_eqb k k0) eqn:E; simpl; [|now rewrite IH].
    apply str_eqb_eq in E; subst k0.
    apply not_eq_sym in N; apply str_eqb_neq in N; now rewrite N.
Qed.

Lemma keys_setitem {V} (d : dict V) k v :
  In k (map fst d) -> map fst (setitem d k v) = map fst d.
Proof.
  induction d as [|[k0 v0] d IH]; simpl; [tauto|].
  destruct (str_eqb k k0) eqn:E; simpl; [reflexivity|].
  apply str_eqb_neq in E.
  intros [C|I]; [congruence | now rewrite IH].
Qed.

Section WithUnicode.
Context `{Unicode}.

(** ** [split_title_desc] *)

Lemma split_on_none (seps : list str) (line : str) :
  Forall (fun sep => contains sep line = false) seps ->
  split_on seps line = Ok (strip line, None).
Proof.
  induction 1 as [|sep seps E _ IH]; simpl; [reflexivity|].
  now rewrite E.
Qed.

(** The line is cut at the first occurrence of the first separator, in
    the order of the list, that occurs in it. *)
Lemma split_on_first (before after : list str) (sep line : str) :
  Forall (fun sep' => contains sep' line = false) before ->
  contains sep line = true ->
  sep <> [] ->
  exists title desc,
    line = title ++ sep ++ desc /\
    (forall title' desc',
       line = title' ++ sep ++ desc' -> length title <= length title') /\
    split_on (before ++ sep :: after) line =
      Ok (strip title, Some (strip desc)).
Proof.
  intros Hb Hs Hne; induction Hb as [|sep' before E _ IH]; simpl.
  - rewrite Hs; unfold split1.
    destruct sep as [|c sep]; [congruence|].
    destruct (partition (c :: sep) line) as [[title desc]|] eqn:P.
    + apply partition_Some in P; destruct P as [E Hmin].
      exists title, desc; repeat split; assumption.
    + apply partition_None in P; congruence.
  - now rewrite E.
Qed.

(** The separators as the specification spells them, with the en dash
    and the em dash. *)
Definition claimed_separators : list str :=
  [lit ": "; lit " - "; [32; 0x2013; 32]%N; [32; 0x2014; 32]%N; lit ". "].

(** A line with an en dash between spaces, and a line with the third
    string of [separators] in its place. *)
Definition en_dash_sep : str := [32; 0x2013; 32]%N.
Definition en_dash_line : str :=
  lit "Sunset" ++ en_dash_sep ++ lit "warm light over the bay".
Definition other_line : str :=
  lit "Sunset" ++ nth 2 separators [] ++ lit "warm light over the bay".

(** C8, on the code as it is: the two dash separators of line 654 are
    not the en dash and the em dash but three other code points each.
    A line whose only separator is an en dash between spaces comes back
    whole, as a title without description; and a line that holds none
    of the five separators of the specification, but the third string
    of the code, is split. *)
Theorem en_dash_line_not_split :
  (In en_dash_sep claimed_separators /\
   contains en_dash_sep en_dash_line = true /\
   split_title_desc en_dash_line = Ok (strip en_dash_line, None)) /\
  (forallb (fun sep => negb (contains sep other_line)) claimed_separators
     = true /\
   split_title_desc other_line =
     Ok (strip (lit "Sunset"), Some (strip (lit "warm light over the bay")))).
Proof.
  split; split.
  - cbn; tauto.
  - split; [reflexivity|].
    apply split_on_none.
    repeat (constructor; [reflexivity|]); constructor.
  - reflexivity.
  - reflexivity.
Qed.

(** ** [parse_complex_result] *)

(** [key] occurs in [s], case apart. *)
Definition occurs_ci (key s : str) : Prop :=
  exists pre mid post,
    s = pre ++ mid ++ post /\
    Forall2 (fun k c => ci_eq k c = true) key mid.

Lemma match_key key re :
  forall prev s gs rest,
    match_here (map (fun k => Class (ci_eq k) One) key ++ re) prev s
      = Some (gs, rest) ->
    exists mid post,
      s = mid ++ post /\ Forall2 (fun k c => ci_eq k c = true) key mid.
Proof.
  induction key as [|k key IH]; intros prev s gs rest; cbn [map app].
  - intros _; exists [], s; split; [reflexivity | constructor].
  - cbn [match_here]; destruct s as [|c t]; [discriminate|].
    destruct (ci_eq k c) eqn:E; [|discriminate].
    intros M; apply push_Some in M; destruct M as (gs' & M & _).
    apply IH in M; destruct M as (mid & post & -> & F).
    exists (c :: mid), post; split; [reflexivity | now constructor].
Qed.

Lemma search_label_occurs key s gs :
  search (label_re key) s = Some gs -> occurs_ci key s.
Proof.
  unfold search, label_re; intros E.
  apply search_go_Some in E; destruct E as (pre & s' & prev' & rest & -> & M).
  apply match_key in M; destruct M as (mid & post & -> & F).
  now exists pre, mid, post.
Qed.

(** The text that [re.sub] puts in place of the list markers is a line
    feed, so a piece of the new text without a line feed is a piece of
    the old one. *)
Definition starts (m s : str) : Prop := exists r, s = m ++ r.

Lemma occurs_cons m c s : occurs m (c :: s) <-> starts m (c :: s) \/ occurs m s.
Proof.
  split.
  - intros (pre & post & E); destruct pre as [|c' pre].
    + left; now exists post.
    + right; inversion E; now exists pre, post.
  - intros [(r & E)|(pre & post & ->)].
    + now exists [], r.
    + now exists (c :: pre), post.
Qed.

Lemma sub_go_starts re :
  forall s m skip prev,
    Forall (fun c => c <> newline) m ->
    starts m (sub_go re [newline] skip prev s) -> starts m (skipn skip s).
Proof.
  induction s as [|c t IH]; intros m skip prev Hm.
  - cbn [sub_go]; now rewrite skipn_nil.
  - assert (Hkeep : starts m (c :: sub_go re [newline] 0 (Some c) t) ->
                    starts m (c :: t)).
    { intros (r & E); destruct m as [|a m].
      - now exists (c :: t).
      - inversion E; subst a.
        inversion Hm; subst.
        destruct (IH m 0 (Some c)) as (r' & E'); [assumption | now exists r|].
        cbn [skipn] in E'; exists r'; now rewrite E'. }
    cbn [sub_go]; destruct skip as [|k]; [|now apply IH].
    cbn [skipn].
    destruct (match_here re prev (c :: t)) as [[gs rest]|]; [|exact Hkeep].
    destruct (length (concat gs)); [exact Hkeep|].
    intros (r & E); destruct m as [|a m].
    + now exists (c :: t).
    + inversion E; subst a; inversion Hm; congruence.
Qed.

Lemma sub_go_occurs re m :
  Forall (fun c => c <> newline) m ->
  forall s skip prev,
    occurs m (sub_go re [newline] skip prev s) -> occurs m s.
Proof.
  intros Hm; induction s as [|c t IH]; intros skip prev.
  - cbn [sub_go]; auto.
  - assert (Htail : forall k p, occurs m (sub_go re [newline] k p t) ->
                                occurs m (c :: t)).
    { intros k p O; apply occurs_cons; right; eapply IH; eassumption. }
    assert (Hkeep : occurs m (c :: sub_go re [newline] 0 (Some c) t) ->
                    occurs m (c :: t)).
    { intros O; apply occurs_cons in O; destruct O as [(r & E)|O]; [|eauto].
      apply occurs_cons; left; destruct m as [|a m]; [now exists (c :: t)|].
      inversion E; subst a; inversion Hm; subst.
      destruct (sub_go_starts re t m 0 (Some c)) as (r' & E'); [assumption | now exists r|].
      cbn [skipn] in E'; exists r'; now rewrite E'. }
    cbn [sub_go]; destruct skip as [|k]; [|apply Htail].
    destruct (match_here re prev (c :: t)) as [[gs rest]|]; [|exact Hkeep].
    destruct (length (concat gs)); [exact Hkeep|].
    cbn [app]; intros O; apply occurs_cons in O; destruct O as [(r & E)|O]; [|eauto].
    destruct m as [|a m]; [now exists [], (c :: t)|].
    inversion E; subst a; inversion Hm; congruence.
Qed.

Fixpoint startswith_ci (key s : str) : bool :=
  match key, s with
  | [], _ => true
  | k :: key', c :: s' => ci_eq k c && startswith_ci key' s'
  | _ :: _, [] => false
  end.

Fixpoint contains_ci (key s : str) : bool :=
  startswith_ci key s ||
  match s with
  | [] => false
  | _ :: t => contains_ci key t
  end.

Lemma startswith_ci_app key mid post :
  Forall2 (fun k c => ci_eq k c = true) key mid ->
  startswith_ci key (mid ++ post) = true.
Proof.
  induction 1 as [|k c key mid E _ IH]; simpl; [reflexivity|].
  now rewrite E, IH.
Qed.

Lemma occurs_ci_contains key s : occurs_ci key s -> contains_ci key s = true.
Proof.
  intros (pre & mid & post & -> & F).
  induction pre as [|c pre IH]; simpl.
  - pose proof (startswith_ci_app key mid post F) as S.
    destruct (mid ++ post); simpl; now rewrite S.
  - rewrite IH; apply orb_true_r.
Qed.

Definition no_newline (key : str) : bool :=
  forallb (fun k => negb (N.eqb k newline)) key.

Lemma matched_no_newline key mid :
  no_newline key = true ->
  Forall2 (fun k c => ci_eq k c = true) key mid ->
  Forall (fun c => c <> newline) mid.
Proof.
  intros Hk F; induction F as [|k c key mid E _ IH]; constructor.
  - intros ->; apply ci_eq_newline in E; subst k.
    simpl in Hk; discriminate.
  - apply IH; simpl in Hk; now apply andb_prop in Hk.
Qed.

(** A label that the pattern finds in the text without the list
    markers is in the text as it came. *)
Lemma search_normalized_occurs key text gs :
  no_newline key = true ->
  search (label_re key) (sub marker_re [newline] text) = Some gs ->
  occurs_ci key text.
Proof.
  intros Hk E; apply search_label_occurs in E.
  destruct E as (pre & mid & post & E & F).
  destruct (sub_go_occurs marker_re mid (matched_no_newline _ _ Hk F)
              text 0 None) as (pre' & post' & ->).
  - exists pre, post; exact E.
  - now exists pre', mid, post'.
Qed.

(** The loop over the keys writes each key once and leaves the other
    entries as they are. *)
Lemma fold_parse_key text ks :
  forall d,
    NoDup ks -> List.incl ks (map fst d) ->
    map fst (fold_left (parse_key text) ks d) = map fst d /\
    forall key,
      lookup (fold_left (parse_key text) ks d) key =
      if mem key ks then
        match search (label_re key) text with
        | Some gs => Some (strip (last gs []))
        | None => lookup d key
        end
      else lookup d key.
Proof.
  induction ks as [|k ks IH]; intros d ND I; [split; reflexivity|].
  inversion ND as [|? ? Nin ND']; subst.
  assert (Ik : In k (map fst d)) by (apply I; now left).
  assert (K : map fst (parse_key text d k) = map fst d).
  { unfold parse_key; destruct (search (label_re k) text); [|reflexivity].
    now apply keys_setitem. }
  cbn [fold_left].
  destruct (IH (parse_key text d k) ND') as [Hkeys Hval].
  { rewrite K; intros x Hx; apply I; now right. }
  split; [now rewrite Hkeys|].
  intros key; rewrite Hval.
  change (mem key (k :: ks)) with (str_eqb key k || mem key ks).
  destruct (str_eqb key k) eqn:E.
  - apply str_eqb_eq in E; subst key.
    apply mem_not_In in Nin; rewrite Nin; cbn [orb].
    unfold parse_key; destruct (search (label_re k) text); [|reflexivity].
    apply lookup_setitem_eq.
  - apply str_eqb_neq in E; cbn [orb].
    assert (L : lookup (parse_key text d k) key = lookup d key).
    { unfold parse_key; destruct (search (label_re k) text); [|reflexivity].
      apply lookup_setitem_neq; congruence. }
    now rewrite L.
Qed.

Lemma labels_NoDup : NoDup labels.
Proof.
  unfold labels.
  repeat (constructor; [cbn [In]; intros C;
    repeat (destruct C as [C|C]; [discriminate C|]); exact C|]).
  constructor.
Qed.

(** C5. For every text [parse_complex_result] returns the four fields,
    under the four labels and in their order, each with a value; the
    value of a label that does not occur in the text, case apart, is
    the empty string.  The function is total: it raises nothing. *)
Theorem parse_complex_result_total (text : str) :
  map fst (parse_complex_result text) = labels /\
  forall key,
    In key labels ->
    (exists value, lookup (parse_complex_result text) key = Some value) /\
    (~ occurs_ci key text ->
     lookup (parse_complex_result text) key = Some []).
Proof.
  pose (d := map (fun key => (key, @nil char)) labels).
  assert (Kd : map fst d = labels) by reflexivity.
  change (parse_complex_result text)
    with (fold_left (parse_key (sub marker_re [newline] text)) labels d).
  destruct (fold_parse_key (sub marker_re [newline] text) labels d labels_NoDup)
    as [Hkeys Hval]; [exact (incl_refl labels)|].
  split; [now rewrite Hkeys|].
  intros key Ik; rewrite Hval.
  assert (Ld : lookup d key = Some []).
  { apply In_lookup; [rewrite Kd; apply labels_NoDup|].
    unfold d; apply in_map_iff; now exists key. }
  assert (Nk : no_newline key = true).
  { cbn [labels In] in Ik.
    repeat (destruct Ik as [<-|Ik]; [reflexivity|]); contradiction. }
  apply mem_In in Ik; rewrite Ik; split.
  - destruct (search (label_re key) (sub marker_re [newline] text));
      [eauto | exists []; exact Ld].
  - intros Nocc.
    destruct (search (label_re key) (sub marker_re [newline] text)) eqn:E;
      [|exact Ld].
    exfalso; apply Nocc; eapply search_normalized_occurs; eassumption.
Qed.

End WithUnicode.
End PageFacts.

(** * Facts about sets *)
Module SetFacts.
Import Py PyFacts.

Lemma set_add_In x y s : In y (set_add x s) <-> y = x \/ In y s.
Proof.
  unfold set_add; destruct (mem x s) eqn:M.
  - apply mem_In in M; split; [tauto | intros [->|I]; assumption].
  - rewrite in_app_iff; simpl; split; [intros [I|[->|[]]] | intros [->|I]]; auto.
Qed.

Lemma set_add_NoDup x s : NoDup s -> NoDup (set_add x s).
Proof.
  intros ND; unfold set_add; destruct (mem x s) eqn:M; [assumption|].
  apply mem_not_In in M.
  apply NoDup_rev in ND; rewrite <- (rev_involutive (s ++ [x])), rev_app_distr.
  apply NoDup_rev; simpl; constructor; [now rewrite <- in_rev | assumption].
Qed.

Lemma set_add_length x s : length s <= length (set_add x s).
Proof.
  unfold set_add; destruct (mem x s); [lia | rewrite length_app; lia].
Qed.

Lemma set_update_In xs : forall s y, In y (set_update s xs) <-> In y s \/ In y xs.
Proof.
  unfold set_update; induction xs as [|x xs IH]; intros s y; simpl; [tauto|].
  rewrite IH, set_add_In; intuition.
Qed.

Lemma set_update_NoDup xs : forall s, NoDup s -> NoDup (set_update s xs).
Proof.
  unfold set_update; induction xs as [|x xs IH]; intros s ND; simpl; [assumption|].
  now apply IH, set_add_NoDup.
Qed.

Lemma set_update_length xs : forall s, length s <= length (set_update s xs).
Proof.
  unfold set_update; induction xs as [|x xs IH]; intros s; simpl; [lia|].
  pose proof (set_add_length x s); pose proof (IH (set_add x s)); lia.
Qed.

Lemma set_update_cons x xs s :
  set_update s (x :: xs) = set_update (set_add x s) xs.
Proof. reflexivity. Qed.

Lemma set_update_included xs : forall s, incl xs s -> set_update s xs = s.
Proof.
  induction xs as [|x xs IH]; intros s I; [reflexivity|].
  rewrite set_update_cons.
  assert (M : mem x s = true) by (apply mem_In, I; now left).
  unfold set_add; rewrite M; apply IH.
  intros y Hy; apply I; now right.
Qed.

Lemma mem_perm x l l' : Permutation l l' -> mem x l = mem x l'.
Proof.
  intros P; destruct (mem x l') eqn:M.
  - apply mem_In; apply mem_In in M; eapply Permutation_in; [symmetry|]; eassumption.
  - apply mem_not_In; apply mem_not_In in M; intros I; apply M.
    eapply Permutation_in; eassumption.
Qed.

Lemma set_update_perm xs :
  forall l l', Permutation l l' ->
               Permutation (set_update l xs) (set_update l' xs).
Proof.
  induction xs as [|x xs IH]; intros l l' P; [exact P|].
  rewrite !set_update_cons; apply IH.
  unfold set_add; rewrite (mem_perm x l l' P).
  destruct (mem x l'); [exact P | now apply Permutation_app_tail].
Qed.

Lemma insert_by_perm h x l : Permutation (insert_by h x l) (x :: l).
Proof.
  induction l as [|y t IH]; simpl; [reflexivity|].
  destruct (h x <? h y)%N; [reflexivity|].
  rewrite IH; apply perm_swap.
Qed.

(** Whatever the hashes, [list(s)] yields the members of [s], once
    each. *)
Lemma set_to_list_perm h s : Permutation (set_to_list h s) s.
Proof.
  unfold set_to_list; induction s as [|x s IH]; simpl; [reflexivity|].
  rewrite insert_by_perm; now constructor.
Qed.

End SetFacts.

(** * HashtagSuggester: the properties *)
Module HashtagSuggesterFacts.
Import Py PyFacts SetFacts HashtagSuggester.
Section WithUnicode.
Context `{Unicode}.

(** The two hashtags that [random.sample] draws. *)
Definition drawn (rnd : nat -> nat) : list str :=
  sample_go rnd 0 (Nat.min 2 (length trending_hashtags)) trending_hashtags.

(** The set of line 159, before it is turned into a list. *)
Definition suggested (rnd : nat -> nat) (text : str) : list str :=
  set_update (category_matches text) (drawn rnd).

(** All the hashtags that a call can reach: the category matches, the
    drawn trending ones and the generic ones, once each. *)
Definition all_pools (rnd : nat -> nat) (text : str) : list str :=
  set_update (suggested rnd text) generic_hashtags.

Definition total (rnd : nat -> nat) (text : str) : Z :=
  len (all_pools rnd text).

Lemma suggest_hashtags_unfold fuel h rnd text count :
  suggest_hashtags fuel h rnd text count =
  hashtag_list <- pad fuel count
                    (slice_to count (set_to_list h (suggested rnd text))) ;;
  Ok (slice_to count hashtag_list).
Proof. reflexivity. Qed.

Lemma category_matches_NoDup text : NoDup (category_matches text).
Proof.
  unfold category_matches.
  generalize (str_lower text); intros text_lower.
  assert (G : forall db s, NoDup s ->
    NoDup (fold_left
      (fun suggested_hashtags (item : str * list str) =>
         let '(category, hashtags) := item in
         if contains category text_lower
         then set_update suggested_hashtags (slice_to 3 hashtags)
         else suggested_hashtags) db s)).
  { induction db as [|[c hs] db IH]; intros s ND; simpl; [assumption|].
    apply IH; destruct (contains c text_lower); [|assumption].
    now apply set_update_NoDup. }
  apply G; constructor.
Qed.

Lemma suggested_NoDup rnd text : NoDup (suggested rnd text).
Proof. apply set_update_NoDup, category_matches_NoDup. Qed.

Lemma all_pools_NoDup rnd text : NoDup (all_pools rnd text).
Proof. apply set_update_NoDup, suggested_NoDup. Qed.

(** One pass over the generic hashtags: nothing is lost or repeated,
    and the pass ends with [count] hashtags or with every generic one
    in the list. *)
Lemma add_generic_spec count generic :
  forall l,
    let l' := add_generic count generic l in
    incl l l' /\ ((count <= len l')%Z \/ incl generic l').
Proof.
  induction generic as [|x g IH]; intros l; simpl.
  - split; [apply incl_refl | right; intros y []].
  - destruct (mem x l) eqn:M; simpl.
    + destruct (IH l) as [I D]; split; [exact I|].
      destruct D as [D|D]; [now left | right].
      intros y [<-|Hy]; [apply I; now apply mem_In | now apply D].
    + destruct (count <=? len (l ++ [x]))%Z eqn:C.
      * split; [now apply incl_appl, incl_refl | left; now apply Z.leb_le].
      * destruct (IH (l ++ [x])) as [I D]; split.
        -- intros y Hy; apply I, in_or_app; now left.
        -- destruct D as [D|D]; [now left | right].
           intros y [<-|Hy]; [apply I, in_or_app; right; now left | now apply D].
Qed.

(** A pass that cannot reach [count] adds all the generic hashtags
    that were missing. *)
Lemma add_generic_short count generic :
  forall l,
    (len (set_update l generic) < count)%Z ->
    add_generic count generic l = set_update l generic.
Proof.
  induction generic as [|x g IH]; intros l Hc; [reflexivity|].
  rewrite set_update_cons in *; cbn [add_generic].
  unfold set_add in *; destruct (mem x l); cbn [negb]; [now apply IH|].
  pose proof (set_update_length g (l ++ [x])) as Hl.
  destruct (count <=? len (l ++ [x]))%Z eqn:C; [|now apply IH].
  apply Z.leb_le in C; unfold len in *; lia.
Qed.

(** When [count] is more than all that can be reached, the loop goes
    on for ever: after the first pass the list holds every generic
    hashtag, is still too short, and no later pass changes it. *)
Lemma pad_stuck count l :
  incl generic_hashtags l -> (len l < count)%Z ->
  forall fuel, pad fuel count l = OutOfFuel.
Proof.
  intros I Hc; induction fuel as [|fuel IH]; [reflexivity|].
  cbn [pad]; apply Z.ltb_lt in Hc; rewrite Hc; apply Z.ltb_lt in Hc.
  rewrite add_generic_short; rewrite set_update_included; assumption.
Qed.

Lemma pad_diverges count l :
  (len (set_update l generic_hashtags) < count)%Z ->
  forall fuel, pad fuel count l = OutOfFuel.
Proof.
  intros Hc [|fuel]; [reflexivity|]; cbn [pad].
  pose proof (set_update_length generic_hashtags l) as Hl.
  assert (Hlt : (len l <? count)%Z = true) by (apply Z.ltb_lt; unfold len in *; lia).
  rewrite Hlt, add_generic_short by assumption.
  apply pad_stuck; [|assumption].
  intros y Hy; apply set_update_In; now right.
Qed.

Lemma set_to_list_total h rnd text :
  len (set_update (set_to_list h (suggested rnd text)) generic_hashtags)
  = total rnd text.
Proof.
  unfold total, all_pools, len; f_equal.
  apply Permutation_length, set_update_perm, set_to_list_perm.
Qed.

(** C2, on the code as it is: when [count] exceeds the number of
    distinct hashtags of all the pools, the padding loop does not end
    by exhaustion of the pool; whatever the fuel, the call is still
    running. *)
Theorem suggest_hashtags_diverges
    (fuel : nat) (h : str -> N) (rnd : nat -> nat) (text : str) (count : Z) :
  (total rnd text < count)%Z ->
  suggest_hashtags fuel h rnd text count = OutOfFuel.
Proof.
  intros Hc; rewrite suggest_hashtags_unfold.
  pose proof (set_to_list_total h rnd text) as T.
  pose proof (set_update_length generic_hashtags
                (set_to_list h (suggested rnd text))) as Hl.
  rewrite slice_to_all by (unfold len in *; lia).
  rewrite pad_diverges; [reflexivity | lia].
Qed.

(** C3. For a count between 0 and the number of distinct hashtags of
    all the pools, the call returns, after at most two tests of the
    loop condition, a list of exactly [count] hashtags. *)
Theorem suggest_hashtags_exact_count
    (fuel : nat) (h : str -> N) (rnd : nat -> nat) (text : str) (count : Z) :
  (0 <= count <= total rnd text)%Z ->
  2 <= fuel ->
  exists hashtags,
    suggest_hashtags fuel h rnd text count = Ok hashtags /\
    len hashtags = count.
Proof.
  intros [H0 Ht] Hf; rewrite suggest_hashtags_unfold.
  destruct fuel as [|[|fuel]]; [lia | lia |].
  set (l0 := set_to_list h (suggested rnd text)).
  pose proof (set_to_list_perm h (suggested rnd text)) as P; fold l0 in P.
  destruct (Z.lt_ge_cases (len l0) count) as [Hlt|Hge].
  - rewrite slice_to_all by lia.
    cbn [pad]; apply Z.ltb_lt in Hlt; rewrite Hlt.
    destruct (add_generic_spec count generic_hashtags l0) as [I D].
    set (l1 := add_generic count generic_hashtags l0) in *.
    assert (Hl1 : (count <= len l1)%Z).
    { destruct D as [D|D]; [exact D|].
      assert (Hi : incl (all_pools rnd text) l1).
      { intros y Hy; apply set_update_In in Hy; destruct Hy as [Hy|Hy].
        - apply I; eapply Permutation_in; [symmetry|]; eassumption.
        - now apply D. }
      apply (NoDup_incl_length (all_pools_NoDup rnd text)) in Hi.
      unfold total, len in *; lia. }
    assert (Hge : (len l1 <? count)%Z = false) by (apply Z.ltb_ge; lia).
    rewrite Hge; cbn [bind]; eexists; split; [reflexivity|].
    rewrite len_slice_to; lia.
  - assert (Hs : len (slice_to count l0) = count) by (rewrite len_slice_to; lia).
    cbn [pad].
    assert (Hn : (len (slice_to count l0) <? count)%Z = false)
      by (apply Z.ltb_ge; lia).
    rewrite Hn; cbn [bind]; eexists; split; [reflexivity|].
    rewrite slice_to_all; lia.
Qed.

End WithUnicode.
End HashtagSuggesterFacts.

(** * The functions on ASCII text *)
Module Examples.
Import Py PyFacts Re.
#[local] Existing Instance AsciiTables.tables.

(** A hash and a stream of draws to run [suggest_hashtags] with. *)
Definition hash_length (s : str) : N := N.of_nat (length s).
Definition draws (i : nat) : nat := i.

Lemma suggest_hashtags_diverges_witness :
  HashtagSuggester.suggest_hashtags
    100 hash_length draws [] 8%Z = OutOfFuel.
Proof.
  apply HashtagSuggesterFacts.suggest_hashtags_diverges.
  vm_compute; reflexivity.
Defined.

Lemma suggest_hashtags_exact_count_witness :
  exists hashtags,
    HashtagSuggester.suggest_hashtags
      2 hash_length draws (lit "Our new technology product") 5%Z
    = Ok hashtags /\
    len hashtags = 5%Z.
Proof.
  apply HashtagSuggesterFacts.suggest_hashtags_exact_count.
  - vm_compute; split; discriminate.
  - lia.
Defined.

(** The text of the example of the specification. *)
Definition numbered_example : str :=
  lit "1. Caption: Great day" ++ [newline] ++
  lit "2. Post Idea: Go outside" ++ [newline] ++
  lit "3. Hashtags: #sun, #fun".

(** C6. On the numbered example the list markers become line feeds,
    and the parser returns the caption, the post idea and the hashtags
    of the three lines, and the empty string for the visual
    suggestion, which the text does not have. *)
Theorem parse_numbered_example :
  sub marker_re [newline] numbered_example =
    [newline] ++ lit "Caption: Great day" ++
    [newline] ++ lit "Post Idea: Go outside" ++
    [newline] ++ lit "Hashtags: #sun, #fun" /\
  Page.parse_complex_result numbered_example =
    [(lit "Caption", lit "Great day");
     (lit "Post Idea", lit "Go outside");
     (lit "Hashtags", lit "#sun, #fun");
     (lit "Visual/Design Suggestion", [])].
Proof. split; vm_compute; reflexivity. Qed.

Lemma parse_complex_result_total_witness :
  lookup (Page.parse_complex_result numbered_example)
         (lit "Visual/Design Suggestion") = Some [].
Proof.
  apply (proj2 (PageFacts.parse_complex_result_total numbered_example)).
  - cbn [Page.labels In]; tauto.
  - intros O; apply PageFacts.occurs_ci_contains in O.
    vm_compute in O; discriminate O.
Defined.

End Examples.

(** * HashtagSuggester: what a call returns *)
Module HashtagSuggesterMore.
Import Py PyFacts SetFacts HashtagSuggester HashtagSuggesterFacts.

Lemma remove_nth_incl {A} (l : list A) : forall i, incl (remove_nth i l) l.
Proof.
  induction l as [|x l IH]; intros [|j]; simpl; try apply incl_refl.
  - apply incl_tl, incl_refl.
  - intros y [<-|Hy]; [now left | right; now apply (IH j)].
Qed.

Lemma remove_nth_NoDup {A} (l : list A) :
  forall i, NoDup l -> NoDup (remove_nth i l).
Proof.
  induction l as [|x l IH]; intros [|j] ND; simpl.
  - constructor.
  - constructor.
  - now inversion ND.
  - inversion ND as [|? ? Nin ND']; subst.
    constructor; [|now apply IH].
    intros I; apply Nin; eapply remove_nth_incl; eassumption.
Qed.

Lemma remove_nth_length {A} (l : list A) :
  forall i, i < length l -> length (remove_nth i l) = length l - 1.
Proof.
  induction l as [|x l IH]; intros [|j] Hi; simpl in *; try lia.
  rewrite IH by lia; lia.
Qed.

Lemma remove_nth_not_In {A} (l : list A) (d : A) :
  forall i, NoDup l -> i < length l -> ~ In (nth i l d) (remove_nth i l).
Proof.
  induction l as [|x l IH]; intros [|j] ND Hi; simpl in *; try lia.
  - now inversion ND.
  - inversion ND as [|? ? Nin ND']; subst.
    intros [E|I].
    + apply Nin; rewrite E; apply nth_In; lia.
    + apply (IH j ND'); [lia | assumption].
Qed.

(** [random.sample] draws [k] different members of the population. *)
Lemma sample_go_spec {A} (rnd : nat -> nat) :
  forall k i (pop : list A),
    NoDup pop -> k <= length pop ->
    NoDup (sample_go rnd i k pop) /\
    incl (sample_go rnd i k pop) pop /\
    length (sample_go rnd i k pop) = k.
Proof.
  induction k as [|k IH]; intros i pop ND Hk.
  - repeat split; [constructor | intros y []].
  - destruct pop as [|d pop']; [simpl in Hk; lia|].
    cbn [sample_go].
    remember (d :: pop') as pop eqn:Ep.
    assert (Hl : 0 < length pop) by (subst pop; simpl; lia).
    assert (Hj : rnd i mod length pop < length pop)
      by (apply Nat.mod_upper_bound; lia).
    destruct (IH (S i) (remove_nth (rnd i mod length pop) pop)) as (N & I & L).
    + now apply remove_nth_NoDup.
    + rewrite remove_nth_length by assumption; lia.
    + repeat split.
      * constructor; [|exact N].
        intros C; apply I in C.
        now apply (remove_nth_not_In pop d _ ND Hj).
      * intros y [<-|Hy]; [now apply nth_In|].
        eapply remove_nth_incl; apply I; exact Hy.
      * cbn [length]; f_equal; exact L.
Qed.

Lemma add_generic_NoDup count generic :
  forall l, NoDup l -> NoDup (add_generic count generic l).
Proof.
  induction generic as [|x g IH]; intros l ND; simpl; [assumption|].
  destruct (mem x l) eqn:M; simpl; [now apply IH|].
  assert (ND' : NoDup (l ++ [x])).
  { pose proof (set_add_NoDup x l ND) as S; unfold set_add in S.
    now rewrite M in S. }
  destruct (count <=? len (l ++ [x]))%Z; [assumption | now apply IH].
Qed.

(** A pass only appends, and only generic hashtags. *)
Lemma add_generic_appends count generic :
  forall l, exists added,
    add_generic count generic l = l ++ added /\ incl added generic.
Proof.
  induction generic as [|x g IH]; intros l; simpl.
  - exists []; split; [now rewrite app_nil_r | intros y []].
  - destruct (mem x l); simpl.
    + destruct (IH l) as (a & -> & I); exists a; split; [reflexivity|].
      now apply incl_tl.
    + destruct (count <=? len (l ++ [x]))%Z.
      * exists [x]; split; [reflexivity|]; intros y [<-|[]]; now left.
      * destruct (IH (l ++ [x])) as (a & -> & I); exists (x :: a); split.
        -- now rewrite <- app_assoc.
        -- intros y [<-|Hy]; [now left | right; now apply I].
Qed.

Section WithUnicode.
Context `{Unicode}.

(** What a call with a count between 0 and the number of reachable
    hashtags returns. *)
Lemma suggest_hashtags_result
    (fuel : nat) (h : str -> N) (rnd : nat -> nat) (text : str) (count : Z) :
  (0 <= count <= total rnd text)%Z ->
  exists hashtags,
    suggest_hashtags (S (S fuel)) h rnd text count = Ok hashtags /\
    len hashtags = count /\
    NoDup hashtags /\
    incl hashtags (all_pools rnd text) /\
    ((len (suggested rnd text) <= count)%Z -> incl (suggested rnd text) hashtags) /\
    ((count <= len (suggested rnd text))%Z -> incl hashtags (suggested rnd text)).
Proof.
  intros [H0 Ht]; rewrite suggest_hashtags_unfold.
  set (l0 := set_to_list h (suggested rnd text)).
  pose proof (set_to_list_perm h (suggested rnd text)) as P; fold l0 in P.
  assert (ND0 : NoDup l0).
  { eapply Permutation_NoDup; [symmetry; exact P | apply suggested_NoDup]. }
  assert (L0 : len l0 = len (suggested rnd text)).
  { unfold len; f_equal; now apply Permutation_length. }
  assert (I0 : incl l0 (suggested rnd text)).
  { intros y Hy; eapply Permutation_in; eassumption. }
  assert (I0' : incl (suggested rnd text) l0).
  { intros y Hy; eapply Permutation_in; [symmetry|]; eassumption. }
  destruct (Z.lt_ge_cases (len l0) count) as [Hlt|Hge].
  - rewrite slice_to_all by lia.
    cbn [pad]; apply Z.ltb_lt in Hlt; rewrite Hlt; apply Z.ltb_lt in Hlt.
    destruct (add_generic_spec count generic_hashtags l0) as [I D].
    destruct (add_generic_appends count generic_hashtags l0) as (added & Ea & Ia).
    pose proof (add_generic_NoDup count generic_hashtags l0 ND0) as ND1.
    set (l1 := add_generic count generic_hashtags l0) in *.
    assert (Il1 : incl l1 (all_pools rnd text)).
    { rewrite Ea; intros y Hy; apply set_update_In.
      apply in_app_or in Hy; destruct Hy as [Hy|Hy]; [left; now apply I0 | right; now apply Ia]. }
    assert (Hl1 : (count <= len l1)%Z).
    { destruct D as [D|D]; [exact D|].
      assert (Hi : incl (all_pools rnd text) l1).
      { intros y Hy; apply set_update_In in Hy; destruct Hy as [Hy|Hy].
        - apply I; now apply I0'.
        - now apply D. }
      apply (NoDup_incl_length (all_pools_NoDup rnd text)) in Hi.
      unfold total, len in *; lia. }
    assert (Hge : (len l1 <? count)%Z = false) by (apply Z.ltb_ge; lia).
    rewrite Hge; cbn [bind]; eexists; split; [reflexivity|].
    rewrite slice_to_nonneg by lia.
    repeat split.
    + unfold len in *; rewrite length_firstn; lia.
    + rewrite <- (firstn_skipn (Z.to_nat count) l1) in ND1.
      now apply NoDup_app_remove_r in ND1.
    + intros y Hy; apply Il1.
      rewrite <- (firstn_skipn (Z.to_nat count) l1); apply in_or_app; now left.
    + intros _ y Hy; apply I0' in Hy.
      rewrite Ea, firstn_app.
      rewrite (@firstn_all2 _ (Z.to_nat count) l0) by (unfold len in *; lia).
      apply in_or_app; now left.
    + intros Hc; lia.
  - assert (Hs : len (slice_to count l0) = count) by (rewrite len_slice_to; lia).
    cbn [pad].
    assert (Hn : (len (slice_to count l0) <? count)%Z = false)
      by (apply Z.ltb_ge; lia).
    rewrite Hn; cbn [bind]; eexists; split; [reflexivity|].
    rewrite (slice_to_all count (slice_to count l0)) by lia.
    rewrite slice_to_nonneg by lia.
    assert (If : incl (firstn (Z.to_nat count) l0) l0).
    { intros y Hy; rewrite <- (firstn_skipn (Z.to_nat count) l0).
      apply in_or_app; now left. }
    repeat split.
    + rewrite <- slice_to_nonneg by lia; exact Hs.
    + rewrite <- (firstn_skipn (Z.to_nat count) l0) in ND0.
      now apply NoDup_app_remove_r in ND0.
    + intros y Hy; apply set_update_In; left; now apply I0, If.
    + intros Hc; rewrite firstn_all2 by (unfold len in *; lia); exact I0'.
    + intros _ y Hy; now apply I0, If.
Qed.

(** The hashtags of the categories, three from each. *)
Definition category_pool : list str :=
  flat_map (fun item : str * list str => slice_to 3 (snd item)) hashtag_database.

Definition match_fold (m : str -> bool) (db : dict (list str)) (s : list str)
  : list str :=
  fold_left
    (fun suggested_hashtags (item : str * list str) =>
       let '(category, hashtags) := item in
       if m category
       then set_update suggested_hashtags (slice_to 3 hashtags)
       else suggested_hashtags)
    db s.

Lemma category_matches_fold text :
  category_matches text =
  match_fold (fun c => contains c (str_lower text)) hashtag_database [].
Proof. reflexivity. Qed.

Lemma match_fold_grows m db :
  forall s, incl s (match_fold m db s).
Proof.
  induction db as [|[c hs] db IH]; intros s; simpl; [apply incl_refl|].
  intros y Hy; apply IH; destruct (m c); [|assumption].
  apply set_update_In; now left.
Qed.

Lemma match_fold_has m db :
  forall s category hashtags,
    In (category, hashtags) db -> m category = true ->
    incl (slice_to 3 hashtags) (match_fold m db s).
Proof.
  induction db as [|[c hs] db IH]; intros s category hashtags; simpl; [tauto|].
  intros [E|I] M.
  - inversion E; subst; rewrite M.
    intros y Hy; apply match_fold_grows, set_update_In; now right.
  - eapply IH; eassumption.
Qed.

Lemma match_fold_within m db :
  forall s,
    incl (match_fold m db s)
         (s ++ flat_map (fun item : str * list str => slice_to 3 (snd item)) db).
Proof.
  induction db as [|[c hs] db IH]; intros s; simpl.
  - rewrite app_nil_r; apply incl_refl.
  - intros y Hy; apply IH in Hy; apply in_app_or in Hy.
    apply in_or_app; destruct Hy as [Hy|Hy].
    + destruct (m c); [|now left].
      apply set_update_In in Hy; destruct Hy as [Hy|Hy]; [now left|].
      right; apply in_or_app; now left.
    + right; apply in_or_app; now right.
Qed.

(** With the five categories there are thirty-two cases; in each the
    matches are three hashtags for every category that matches. *)
Lemma match_fold_length m :
  length (match_fold m hashtag_database []) =
  3 * length (filter m (map fst hashtag_database)).
Proof.
  unfold match_fold; cbn [hashtag_database fold_left map fst filter].
  destruct (m (lit "business")); destruct (m (lit "technology"));
    destruct (m (lit "marketing")); destruct (m (lit "health"));
    destruct (m (lit "education")); reflexivity.
Qed.

Lemma pools_disjoint :
  NoDup (category_pool ++ trending_hashtags ++ generic_hashtags).
Proof.
  apply (NoDup_count_occ' (list_eq_dec N.eq_dec)).
  intros x Hx.
  vm_compute in Hx.
  repeat (destruct Hx as [<-|Hx]; [vm_compute; reflexivity|]); contradiction.
Qed.

Lemma pools_hash :
  forallb (fun tag => match tag with c :: _ => N.eqb c 35 | [] => false end)
          (category_pool ++ trending_hashtags ++ generic_hashtags) = true.
Proof. vm_compute; reflexivity. Qed.

Lemma drawn_spec rnd :
  NoDup (drawn rnd) /\ incl (drawn rnd) trending_hashtags /\ length (drawn rnd) = 2.
Proof.
  unfold drawn; apply sample_go_spec.
  - pose proof pools_disjoint as ND.
    apply NoDup_app_remove_l in ND; now apply NoDup_app_remove_r in ND.
  - simpl; lia.
Qed.

Lemma category_matches_within text y :
  In y (category_matches text) -> In y category_pool.
Proof.
  rewrite category_matches_fold; intros Hy.
  now apply match_fold_within in Hy.
Qed.

Lemma drawn_trending rnd y : In y (drawn rnd) -> In y trending_hashtags.
Proof. intros Hy; now apply (proj1 (proj2 (drawn_spec rnd))). Qed.

Lemma all_pools_within rnd text :
  incl (all_pools rnd text)
       (category_pool ++ trending_hashtags ++ generic_hashtags).
Proof.
  intros y Hy; apply set_update_In in Hy; destruct Hy as [Hy|Hy].
  - apply set_update_In in Hy; destruct Hy as [Hy|Hy].
    + apply in_or_app; left; now apply (category_matches_within text).
    + apply in_or_app; right; apply in_or_app; left; now apply (drawn_trending rnd).
  - apply in_or_app; right; apply in_or_app; now right.
Qed.

Lemma set_update_disjoint_length xs :
  forall s,
    NoDup xs -> (forall x, In x xs -> ~ In x s) ->
    length (set_update s xs) = length s + length xs.
Proof.
  induction xs as [|x xs IH]; intros s ND D; [simpl; lia|].
  inversion ND as [|? ? Nin ND']; subst.
  rewrite set_update_cons, IH; try assumption.
  - unfold set_add.
    assert (M : mem x s = false) by (apply mem_not_In, D; now left).
    rewrite M, length_app; simpl; lia.
  - intros y Hy C; apply set_add_In in C; destruct C as [->|C]; [contradiction|].
    apply (D y); [now right | assumption].
Qed.

Lemma disjoint_parts {A} (a b : list A) :
  NoDup (a ++ b) -> forall x, In x b -> ~ In x a.
Proof.
  intros ND x Hb Ha; apply in_split in Ha; destruct Ha as (a1 & a2 & ->).
  rewrite <- app_assoc in ND; simpl in ND.
  apply NoDup_remove_2 in ND; apply ND.
  rewrite app_assoc; apply in_or_app; now right.
Qed.

Lemma suggested_length rnd text :
  length (suggested rnd text) = length (category_matches text) + 2.
Proof.
  destruct (drawn_spec rnd) as (ND & I & L).
  unfold suggested; rewrite set_update_disjoint_length, L; try assumption; [reflexivity|].
  intros x Hx C; apply I in Hx; apply category_matches_within in C.
  apply (disjoint_parts _ _ pools_disjoint x); [|exact C].
  apply in_or_app; now left.
Qed.

(** X1. The number of distinct hashtags that a call can reach is seven,
    the two drawn trending ones and the five generic ones, plus three
    for every category whose name occurs in the lower-cased text: the
    first three hashtags of the categories, the trending hashtags and
    the generic hashtags are all different from one another. *)
Theorem total_by_categories (rnd : nat -> nat) (text : str) :
  total rnd text =
  (7 + 3 * len (filter (fun category => contains category (str_lower text))
                       (map fst hashtag_database)))%Z /\
  NoDup (flat_map (fun item : str * list str => firstn 3 (snd item))
                  hashtag_database
         ++ trending_hashtags ++ generic_hashtags).
Proof.
  split; [|exact pools_disjoint].
  unfold total, all_pools, len.
  rewrite set_update_disjoint_length.
  - rewrite suggested_length, category_matches_fold, match_fold_length.
    change (length generic_hashtags) with 5; lia.
  - pose proof pools_disjoint as ND.
    apply NoDup_app_remove_l in ND; now apply NoDup_app_remove_l in ND.
  - intros x Hx C.
    assert (Hc : In x (category_pool ++ trending_hashtags)).
    { apply set_update_In in C; apply in_or_app; destruct C as [C|C].
      - left; now apply (category_matches_within text).
      - right; now apply (drawn_trending rnd). }
    pose proof pools_disjoint as ND; rewrite app_assoc in ND.
    exact (disjoint_parts _ _ ND x Hx Hc).
Qed.

Lemma total_ge_5 rnd text : (5 <= total rnd text)%Z.
Proof.
  assert (I : incl generic_hashtags (all_pools rnd text)).
  { intros y Hy; apply set_update_In; now right. }
  apply NoDup_incl_length in I.
  - unfold total, len; change (length generic_hashtags) with 5 in I; lia.
  - pose proof pools_disjoint as ND.
    apply NoDup_app_remove_l in ND; now apply NoDup_app_remove_l in ND.
Qed.

(** X2. With the default count of 5, as the page calls it, the call
    returns for every text: five hashtags, all different. *)
Theorem suggest_hashtags_default_count
    (fuel : nat) (h : str -> N) (rnd : nat -> nat) (text : str) :
  exists hashtags,
    suggest_hashtags (S (S fuel)) h rnd text 5 = Ok hashtags /\
    len hashtags = 5%Z /\
    NoDup hashtags.
Proof.
  destruct (suggest_hashtags_result fuel h rnd text 5)
    as (l & E & L & ND & _); [pose proof (total_ge_5 rnd text); lia|].
  now exists l.
Qed.

(** X3. The hashtags that a call returns are all different; each one
    is a match of a category of the text, a trending hashtag or a
    generic one, and each one starts with the hash sign. *)
Theorem suggest_hashtags_distinct
    (fuel : nat) (h : str -> N) (rnd : nat -> nat) (text : str) (count : Z) :
  (0 <= count <= total rnd text)%Z ->
  exists hashtags,
    suggest_hashtags (S (S fuel)) h rnd text count = Ok hashtags /\
    NoDup hashtags /\
    Forall (fun tag =>
              (In tag (category_matches text) \/
               In tag trending_hashtags \/
               In tag generic_hashtags) /\
              exists rest, tag = 35%N :: rest)
           hashtags.
Proof.
  intros Hc.
  destruct (suggest_hashtags_result fuel h rnd text count Hc)
    as (l & E & _ & ND & I & _).
  exists l; repeat split; try assumption.
  apply Forall_forall; intros tag Ht; split.
  - apply I, set_update_In in Ht; destruct Ht as [Ht|Ht]; [|tauto].
    apply set_update_In in Ht; destruct Ht as [Ht|Ht]; [tauto|].
    right; left; now apply (drawn_trending rnd).
  - apply I, all_pools_within in Ht.
    pose proof pools_hash as P; rewrite forallb_forall in P.
    specialize (P tag Ht); destruct tag as [|c rest]; [discriminate|].
    apply N.eqb_eq in P; subst c; now exists rest.
Qed.

(** X4. For a count between 0 and the number of reachable hashtags the
    generic hashtags only pad: a count of at most the size of the set
    of matches and drawn hashtags is served from that set alone, and a
    count of at least that size gets the whole set. *)
Theorem suggest_hashtags_padding
    (fuel : nat) (h : str -> N) (rnd : nat -> nat) (text : str) (count : Z) :
  (0 <= count <= total rnd text)%Z ->
  exists hashtags,
    suggest_hashtags (S (S fuel)) h rnd text count = Ok hashtags /\
    ((count <= len (suggested rnd text))%Z ->
     Forall (fun tag => In tag (suggested rnd text) /\
                        ~ In tag generic_hashtags) hashtags) /\
    ((len (suggested rnd text) <= count)%Z ->
     Forall (fun tag => In tag hashtags) (suggested rnd text)).
Proof.
  intros Hc.
  destruct (suggest_hashtags_result fuel h rnd text count Hc)
    as (l & E & _ & _ & _ & Hall & Honly).
  exists l; split; [assumption|]; split.
  - intros Hle; apply Forall_forall; intros tag Ht.
    apply (Honly Hle) in Ht; split; [assumption|].
    intros G.
    assert (Hc' : In tag (category_pool ++ trending_hashtags)).
    { apply set_update_In in Ht; apply in_or_app; destruct Ht as [C|C].
      - left; now apply (category_matches_within text).
      - right; now apply (drawn_trending rnd). }
    pose proof pools_disjoint as ND; rewrite app_assoc in ND.
    exact (disjoint_parts _ _ ND tag G Hc').
  - intros Hge; apply Forall_forall; intros tag Ht; now apply (Hall Hge).
Qed.

(** X5. When the name of a category occurs in the lower-cased text and
    the count leaves room for the whole set, the first three hashtags
    of the category are among those returned. *)
Theorem suggest_hashtags_category
    (fuel : nat) (h : str -> N) (rnd : nat -> nat) (text : str) (count : Z)
    (category : str) (hashtags : list str) :
  In (category, hashtags) hashtag_database ->
  contains category (str_lower text) = true ->
  (len (suggested rnd text) <= count <= total rnd text)%Z ->
  exists returned,
    suggest_hashtags (S (S fuel)) h rnd text count = Ok returned /\
    incl (firstn 3 hashtags) returned.
Proof.
  intros Hdb Hm [Hlo Hhi].
  destruct (suggest_hashtags_result fuel h rnd text count)
    as (l & E & _ & _ & _ & Hall & _); [unfold len in *; lia|].
  exists l; split; [assumption|].
  intros y Hy; apply (Hall Hlo), set_update_In; left.
  rewrite category_matches_fold.
  eapply match_fold_has; [exact Hdb | exact Hm | exact Hy].
Qed.

(** X6. A negative count starts no padding: the call returns at once
    the list of the set cut twice from the end, that is without its
    last 2 * |count| members, or the empty list. *)
Theorem suggest_hashtags_negative
    (fuel : nat) (h : str -> N) (rnd : nat -> nat) (text : str) (count : Z) :
  (count < 0)%Z ->
  exists hashtags,
    suggest_hashtags (S fuel) h rnd text count = Ok hashtags /\
    len hashtags = Z.max 0 (len (suggested rnd text) + 2 * count) /\
    incl hashtags (suggested rnd text).
Proof.
  intros Hc; rewrite suggest_hashtags_unfold.
  set (l0 := set_to_list h (suggested rnd text)).
  pose proof (set_to_list_perm h (suggested rnd text)) as P; fold l0 in P.
  assert (L0 : len l0 = len (suggested rnd text)).
  { unfold len; f_equal; now apply Permutation_length. }
  assert (Hcut : forall l : list str,
             len (slice_to count l) = Z.max 0 (len l + count) /\
             incl (slice_to count l) l).
  { intros l; unfold slice_to.
    apply Z.ltb_lt in Hc; rewrite Hc; apply Z.ltb_lt in Hc; split.
    - unfold len; rewrite length_firstn; lia.
    - intros y Hy; rewrite <- (firstn_skipn (Z.to_nat (len l + count)) l).
      apply in_or_app; now left. }
  destruct (Hcut l0) as [L1 I1].
  cbn [pad].
  assert (Hn : (len (slice_to count l0) <? count)%Z = false)
    by (apply Z.ltb_ge; lia).
  rewrite Hn; cbn [bind]; eexists; split; [reflexivity|].
  destruct (Hcut (slice_to count l0)) as [L2 I2]; split; [lia|].
  intros y Hy; eapply Permutation_in; [exact P|]; now apply I1, I2.
Qed.

End WithUnicode.
End HashtagSuggesterMore.

(** * The generation loop of the page

    Lines 550-554 of [generate_comprehensive_content], without the
    language model: one post for every selected platform, each with a
    draw of its own. *)
Module Generation.
Import Py ContentGenerator.

Fixpoint generate_posts (rnd : nat -> nat) (i : nat)
    (topic content_type tone cta : str) (platforms : list str)
    (generated_posts : dict str) : result (dict str) :=
  match platforms with
  | [] => Ok generated_posts
  | platform :: rest =>
      generated_text <-
        generate_text_post (rnd i) topic content_type platform tone cta ;;
      generate_posts rnd (S i) topic content_type tone cta rest
        (setitem generated_posts platform generated_text)
  end.

End Generation.

(** * ContentGenerator: more on the text of a post *)
Module ContentGeneratorMore.
Import Py PyFacts DictFacts ContentGenerator ContentGeneratorFacts Generation.

(** Lines 105-108 and 111-112, as functions of the formatted text. *)
Definition apply_tone (tone generated_text : str) : str :=
  if str_eqb tone (lit "humorous") then generated_text ++ humorous_suffix
  else if str_eqb tone (lit "professional")
       then replace generated_text (lit "!") (lit ".")
       else generated_text.

Definition append_cta (cta generated_text : str) : str :=
  if truthy cta then generated_text ++ lit " " ++ cta else generated_text.

(** The assembled text: a template of the selected pool with the topic
    in the place of its field, then the tone, then the call to action. *)
Lemma assemble_text_shape (r : nat) (topic content_type tone cta : str) :
  exists pool pre post,
    select_templates content_type = Ok pool /\
    In (pre ++ placeholder ++ post) pool /\
    assemble_text r topic content_type tone cta =
      Ok (append_cta cta (apply_tone tone (pre ++ topic ++ post))).
Proof.
  unfold assemble_text.
  destruct (select_templates_spec content_type) as (pool & E & I & _).
  rewrite E; cbn [bind].
  pose proof pools_well_formed as W.
  rewrite forallb_forall in W; specialize (W pool I).
  apply andb_prop in W; destruct W as [T F].
  destruct (random_choice_In r pool) as (t & -> & It); [now destruct pool|].
  cbn [bind]; rewrite forallb_forall in F.
  destruct (format_ok t topic (F t It)) as (pre & post & Et & ->); cbn [bind].
  exists pool, pre, post; subst t; repeat split; assumption.
Qed.

(** The same with the draw: the template is the one that
    [random.choice] takes from the selected pool. *)
Lemma assemble_text_drawn (r : nat) (topic content_type tone cta : str) :
  exists pool template pre post,
    select_templates content_type = Ok pool /\
    random_choice r pool = Ok template /\
    In template pool /\
    template = pre ++ placeholder ++ post /\
    format template topic = Ok (pre ++ topic ++ post) /\
    assemble_text r topic content_type tone cta =
      Ok (append_cta cta (apply_tone tone (pre ++ topic ++ post))).
Proof.
  unfold assemble_text.
  destruct (select_templates_spec content_type) as (pool & E & I & _).
  rewrite E; cbn [bind].
  pose proof pools_well_formed as W.
  rewrite forallb_forall in W; specialize (W pool I).
  apply andb_prop in W; destruct W as [T F].
  destruct (random_choice_In r pool) as (t & Er & It); [now destruct pool|].
  rewrite Er; cbn [bind]; rewrite forallb_forall in F.
  destruct (format_ok t topic (F t It)) as (pre & post & Et & Ef).
  rewrite Ef; cbn [bind].
  exists pool, t, pre, post; repeat split; assumption.
Qed.

(** C9. [generate_text_post] returns a text for every content type, and
    raises nothing.  The pool it selects is the one stored under the
    content type when that is a key of [content_templates], and the
    informative one when it is not; the text returned is made from a
    template of that very pool, the one [random.choice] draws from it:
    the template with the topic in the place of its field, then the
    tone, the call to action and the platform limit.  For a content
    type that is not a key the call returns what it returns for the
    informative type. *)
Theorem content_type_fallback
    (r : nat) (topic content_type platform tone cta : str) :
  exists pool template pre post,
    select_templates content_type = Ok pool /\
    ((In content_type (map fst content_templates) /\
      In (content_type, pool) content_templates) \/
     (~ In content_type (map fst content_templates) /\
      In (lit "informative", pool) content_templates /\
      generate_text_post r topic content_type platform tone cta =
      generate_text_post r topic (lit "informative") platform tone cta)) /\
    random_choice r pool = Ok template /\
    In template pool /\
    template = pre ++ placeholder ++ post /\
    format template topic = Ok (pre ++ topic ++ post) /\
    generate_text_post r topic content_type platform tone cta =
      Ok (fit_platform platform
            (append_cta cta (apply_tone tone (pre ++ topic ++ post)))).
Proof.
  destruct (assemble_text_drawn r topic content_type tone cta)
    as (pool & template & pre & post & E & Er & It & Et & Ef & Ea).
  exists pool, template, pre, post.
  split; [exact E|]; split; [|repeat split; try assumption;
    unfold generate_text_post; now rewrite Ea].
  destruct (select_templates_spec content_type) as (pool0 & E0 & _ & D).
  assert (pool0 = pool) by congruence; subst pool0.
  destruct D as [K|[N I]]; [now left | right].
  repeat split; try assumption.
  destruct (select_templates_spec (lit "informative"))
    as (pool' & E' & _ & [[_ I']|[N' _]]).
  - assert (pool' = pool).
    { pose proof (In_lookup _ _ _ keys_NoDup I) as L1.
      pose proof (In_lookup _ _ _ keys_NoDup I') as L2. congruence. }
    subst pool'.
    unfold generate_text_post, assemble_text; now rewrite E, E'.
  - exfalso; apply N'; cbn; tauto.
Qed.

Definition exclamation : char := 33%N.

Lemma replace_no_exclamation (s : str) :
  ~ In exclamation (replace s (lit "!") (lit ".")).
Proof.
  change (lit "!") with [33%N]; change (lit ".") with [46%N].
  rewrite replace_char; intros I; apply in_map_iff in I.
  destruct I as (c & E & _); unfold exclamation in E.
  destruct (N.eqb 33 c) eqn:Q; [discriminate|].
  apply N.eqb_neq in Q; congruence.
Qed.

Lemma fit_platform_In (platform text : str) (c : char) :
  c <> 46%N -> In c (fit_platform platform text) -> In c text.
Proof.
  intros Hc; unfold fit_platform.
  destruct (get platform_limits platform 2000 <? len text)%Z; [|auto].
  intros I; apply in_app_or in I; destruct I as [I|I].
  - unfold slice_to in I.
    destruct (get platform_limits platform 2000 - 3 <? 0)%Z;
      match type of I with In _ (firstn ?n _) =>
        rewrite <- (firstn_skipn n text) end;
      apply in_or_app; now left.
  - cbn in I; repeat (destruct I as [I|I]; [congruence|]); contradiction.
Qed.

(** X7. Under the professional tone an exclamation mark of the post can
    only come from the call to action: those of the template and of
    the topic are replaced, also in a post that is cut to the limit. *)
Theorem professional_exclamation_only_from_cta
    (r : nat) (topic content_type platform cta : str) :
  exists post,
    generate_text_post r topic content_type platform (lit "professional") cta
      = Ok post /\
    (In exclamation post -> In exclamation cta).
Proof.
  unfold generate_text_post.
  destruct (assemble_text_shape r topic content_type (lit "professional") cta)
    as (pool & pre & suf & _ & _ & ->); cbn [bind].
  eexists; split; [reflexivity|].
  intros I; apply fit_platform_In in I; [|discriminate].
  unfold append_cta in I.
  change (apply_tone (lit "professional") (pre ++ topic ++ suf))
    with (replace (pre ++ topic ++ suf) (lit "!") (lit ".")) in I.
  destruct (truthy cta).
  - apply in_app_or in I; destruct I as [I|I];
      [now apply replace_no_exclamation in I|].
    apply in_app_or in I; destruct I as [I|I]; [|assumption].
    cbn in I; destruct I as [I|[]]; discriminate.
  - now apply replace_no_exclamation in I.
Qed.

(** The topic as the tone leaves it. *)
Definition topic_in_tone (tone topic : str) : str :=
  if str_eqb tone (lit "professional")
  then replace topic (lit "!") (lit ".") else topic.

(** X8. The assembled text holds the topic, as given or, under the
    professional tone, with its exclamation marks replaced, whatever
    the topic holds (braces are copied, not read as fields); and it
    ends with a space and the call to action when there is one. *)
Theorem topic_in_assembled_text (r : nat) (topic content_type tone cta : str) :
  exists text body,
    assemble_text r topic content_type tone cta = Ok text /\
    occurs (topic_in_tone tone topic) body /\
    text = body ++ (if truthy cta then lit " " ++ cta else []).
Proof.
  destruct (assemble_text_shape r topic content_type tone cta)
    as (pool & pre & suf & _ & _ & E).
  exists (append_cta cta (apply_tone tone (pre ++ topic ++ suf))),
         (apply_tone tone (pre ++ topic ++ suf)).
  split; [exact E|]; split.
  - unfold apply_tone, topic_in_tone.
    destruct (str_eqb tone (lit "humorous")) eqn:Hh.
    + apply str_eqb_eq in Hh; subst tone; cbn [str_eqb lit].
      exists pre, (suf ++ humorous_suffix); now rewrite <- !app_assoc.
    + destruct (str_eqb tone (lit "professional")).
      * change (lit "!") with [33%N]; change (lit ".") with [46%N].
        rewrite !replace_char, !map_app.
        now eexists _, _.
      * now exists pre, suf.
  - unfold append_cta; destruct (truthy cta); [reflexivity | now rewrite app_nil_r].
Qed.

(** Every entry is a text within the limit of its platform. *)
Definition within_limits (posts : dict str) : Prop :=
  forall platform text,
    lookup posts platform = Some text ->
    (len text <= get platform_limits platform 2000)%Z.

Lemma generate_posts_spec rnd topic content_type tone cta platforms :
  forall i generated_posts,
    within_limits generated_posts ->
    exists posts,
      generate_posts rnd i topic content_type tone cta platforms generated_posts
        = Ok posts /\
      within_limits posts /\
      (forall platform, In platform platforms ->
         exists text, lookup posts platform = Some text) /\
      (forall platform, ~ In platform platforms ->
         lookup posts platform = lookup generated_posts platform).
Proof.
  induction platforms as [|p rest IH]; intros i d W; cbn [generate_posts].
  - exists d; split; [reflexivity|]; split; [assumption|]; split;
      [intros ? [] | reflexivity].
  - unfold generate_text_post at 1.
    destruct (assemble_text_ok (rnd i) topic content_type tone cta) as (t & ->).
    cbn [bind].
    destruct (IH (S i) (setitem d p (fit_platform p t))) as (posts & E & W' & Hin & Hout).
    { intros q text L; destruct (list_eq_dec N.eq_dec p q) as [<-|Npq].
      - rewrite PageFacts.lookup_setitem_eq in L; inversion L; subst.
        apply fit_platform_spec.
      - rewrite PageFacts.lookup_setitem_neq in L by assumption; now apply W. }
    exists posts; split; [assumption|]; split; [assumption|]; split.
    + intros q [<-|Hq]; [|now apply Hin].
      destruct (in_dec (list_eq_dec N.eq_dec) p rest) as [I|N]; [now apply Hin|].
      rewrite (Hout p N), PageFacts.lookup_setitem_eq; eauto.
    + intros q Nq; rewrite Hout by (intros C; apply Nq; now right).
      apply PageFacts.lookup_setitem_neq; intros ->; apply Nq; now left.
Qed.

(** X9. The loop of the page gives every selected platform a post, and
    every post is within the limit of its own platform; no platform
    that was not selected gets one. *)
Theorem generate_posts_within_limits
    (rnd : nat -> nat) (topic content_type tone cta : str)
    (platforms : list str) :
  exists posts,
    generate_posts rnd 0 topic content_type tone cta platforms [] = Ok posts /\
    forall platform,
      (In platform platforms /\
       exists text,
         lookup posts platform = Some text /\
         (len text <= get platform_limits platform 2000)%Z) \/
      (~ In platform platforms /\ lookup posts platform = None).
Proof.
  destruct (generate_posts_spec rnd topic content_type tone cta platforms 0 [])
    as (posts & E & W & Hin & Hout); [intros ? ? L; discriminate L|].
  exists posts; split; [assumption|].
  intros platform.
  destruct (in_dec (list_eq_dec N.eq_dec) platform platforms) as [I|N].
  - left; split; [assumption|].
    destruct (Hin platform I) as (text & L); exists text; split; [assumption|].
    now apply W.
  - right; split; [assumption|]; now rewrite Hout.
Qed.

End ContentGeneratorMore.

(** * ImageIdeaGenerator: more on keywords and ideas *)
Module ImageIdeaGeneratorMore.
Import Py PyFacts Re ReFacts ImageIdeaGenerator ImageIdeaGeneratorFacts.
Section WithUnicode.
Context `{Unicode}.

(** The text that a greedy atom takes is made of characters of its
    class. *)
Lemma greedy_run p k (Q : list str -> Prop) :
  (forall prev s gs rest, k prev s = Some (gs, rest) -> Q gs) ->
  forall s prev g rest,
    greedy p k prev s = Some (g, rest) ->
    exists m gs, g = m :: gs /\ Forall (fun c => p c = true) m /\ Q gs.
Proof.
  intros Hk; induction s as [|c t IH]; intros prev g rest; simpl.
  - intros E; apply push_Some in E; destruct E as (gs' & E & ->).
    exists [], gs'; repeat split; [constructor | eapply Hk; eassumption].
  - destruct (p c) eqn:Pc.
    + intros E; apply or_else_Some in E; destruct E as [E|E].
      * apply extend_Some in E; destruct E as (m & gs' & E & ->).
        apply IH in E; destruct E as (m' & gs'' & [= -> ->] & F & Hq).
        exists (c :: m'), gs''; repeat split; [now constructor | assumption].
      * apply push_Some in E; destruct E as (gs' & E & ->).
        exists [], gs'; repeat split; [constructor | eapply Hk; eassumption].
    + intros E; apply push_Some in E; destruct E as (gs' & E & ->).
      exists [], gs'; repeat split; [constructor | eapply Hk; eassumption].
Qed.


Lemma findall_go_Forall re (P : str -> Prop) :
  (forall prev s gs rest, match_here re prev s = Some (gs, rest) -> P (concat gs)) ->
  forall s skip prev, Forall P (findall_go re skip prev s).
Proof.
  intros Hm; induction s as [|c t IH]; intros skip prev; simpl; [constructor|].
  destruct skip as [|k]; [|apply IH].
  destruct (match_here re prev (c :: t)) as [[gs rest]|] eqn:M; [|apply IH].
  constructor; [eapply Hm; eassumption | apply IH].
Qed.


Lemma map_app_tail_NoDup (heads : list str) (tail : str) :
  NoDup heads -> NoDup (map (fun h => h ++ tail) heads).
Proof.
  induction 1 as [|a heads Nin _ IH]; cbn [map]; constructor; [|exact IH].
  intros I; apply in_map_iff in I; destruct I as (b & E & Hb).
  apply app_inv_tail in E; subst b; contradiction.
Qed.

(** The five ideas without what the keywords add. *)
Definition idea_heads : list str :=
  firstn 5 (flat_map
    (fun style => map (fun element => title style ++ lit " featuring " ++ element)
                      (firstn 2 image_elements))
    (firstn 3 image_styles)).

Lemma ideas_by_heads (text_post : str) :
  exists tail, generate_ideas text_post = map (fun h => h ++ tail) idea_heads.
Proof.
  unfold generate_ideas.
  generalize (_extract_keywords text_post); intros keywords.
  destruct keywords as [|k ks].
  - exists []; vm_compute; reflexivity.
  - exists (lit " related to " ++ join (lit ", ") (slice_to 2 (k :: ks))).
    set (tail := lit " related to " ++ join (lit ", ") (slice_to 2 (k :: ks))).
    unfold idea_heads.
    cbn [for_styles for_elements slice_to image_styles image_elements
         firstn flat_map map app Z.ltb Z.to_nat Pos.to_nat Pos.iter_op
         Init.Nat.add Z.compare Z.leb len length Z.of_nat Pos.of_succ_nat
         Pos.succ Pos.compare Pos.compare_cont make_idea truthy].
    fold tail.
    now rewrite <- !app_assoc.
Qed.

(** X11. The five ideas of a text are all different. *)
Theorem generate_ideas_distinct (text_post : str) :
  NoDup (generate_ideas text_post).
Proof.
  destruct (ideas_by_heads text_post) as (tail & ->).
  apply map_app_tail_NoDup.
  apply (NoDup_count_occ' (list_eq_dec N.eq_dec)).
  intros x Hx; vm_compute in Hx.
  repeat (destruct Hx as [<-|Hx]; [vm_compute; reflexivity|]); contradiction.
Qed.

End WithUnicode.
End ImageIdeaGeneratorMore.

(** * The page helpers: more on what they return *)
Module PageMore.
Import Py PyFacts DictFacts Re ReFacts Page PageFacts.
Section WithUnicode.
Context `{Unicode}.

(** ** [str.strip] *)

Lemma dropwhile_split {A} (p : A -> bool) (s : list A) :
  exists pre, s = pre ++ dropwhile p s.
Proof.
  induction s as [|c t [pre IH]]; simpl; [now exists []|].
  destruct (p c); [exists (c :: pre); simpl; now f_equal | now exists []].
Qed.

Lemma dropwhile_head {A} (p : A -> bool) (s : list A) c t :
  dropwhile p s = c :: t -> p c = false.
Proof.
  induction s as [|x s IH]; simpl; [discriminate|].
  destruct (p x) eqn:Px; [exact IH | intros [= <- _]; exact Px].
Qed.

(** A text without white space at either end. *)
Definition trimmed (s : str) : Prop :=
  (forall c t, s = c :: t -> isspace c = false) /\
  (forall t c, s = t ++ [c] -> isspace c = false).

Lemma strip_trimmed (s : str) : trimmed (strip s).
Proof.
  unfold strip.
  set (a := dropwhile isspace s).
  set (b := dropwhile isspace (rev a)).
  destruct (dropwhile_split isspace (rev a)) as (pre & E); fold b in E.
  split.
  - intros c t Hc.
    assert (Hb : b = rev t ++ [c]).
    { rewrite <- (rev_involutive b), Hc; reflexivity. }
    rewrite Hb, app_assoc in E.
    assert (Ha : a = c :: rev (pre ++ rev t)).
    { rewrite <- (rev_involutive a), E, rev_app_distr; reflexivity. }
    exact (dropwhile_head isspace s c _ Ha).
  - intros t c Hc.
    assert (Hb : b = c :: rev t).
    { rewrite <- (rev_involutive b), Hc, rev_app_distr; reflexivity. }
    exact (dropwhile_head isspace (rev a) c _ Hb).
Qed.

Lemma strip_occurs (s : str) : occurs (strip s) s.
Proof.
  unfold strip.
  destruct (dropwhile_split isspace s) as (pre & E).
  set (a := dropwhile isspace s) in *.
  destruct (dropwhile_split isspace (rev a)) as (pre' & E').
  set (b := dropwhile isspace (rev a)) in *.
  exists pre, (rev pre').
  rewrite E at 1; f_equal.
  rewrite <- (rev_involutive a), E', rev_app_distr; reflexivity.
Qed.

(** ** [split_title_desc] *)

Lemma first_separator (seps : list str) (line : str) :
  Forall (fun sep => contains sep line = false) seps \/
  exists before sep after,
    seps = before ++ sep :: after /\
    Forall (fun sep' => contains sep' line = false) before /\
    contains sep line = true.
Proof.
  induction seps as [|s seps IH]; [left; constructor|].
  destruct (contains s line) eqn:C.
  - right; exists [], s, seps; repeat split; [constructor | assumption].
  - destruct IH as [F|(before & sep & after & -> & F & Hs)].
    + left; now constructor.
    + right; exists (s :: before), sep, after; repeat split;
        [now constructor | assumption].
Qed.

Lemma separators_nonempty : Forall (fun sep => sep <> []) separators.
Proof. repeat (constructor; [discriminate|]); constructor. Qed.

(** X12. [split_title_desc] raises nothing.  A line that holds none of
    the five separators of line 654 comes back trimmed, as a title
    without description.  Otherwise the first separator of the list
    that occurs in the line decides, whatever occurs before it in the
    line: the line is cut at the first occurrence of that separator,
    into the trimmed text before it and the trimmed text after it. *)
Theorem split_title_desc_spec (line : str) :
  (Forall (fun sep => contains sep line = false) separators /\
   split_title_desc line = Ok (strip line, None)) \/
  (exists before sep after title desc,
     separators = before ++ sep :: after /\
     Forall (fun sep' => contains sep' line = false) before /\
     line = title ++ sep ++ desc /\
     (forall title' desc',
        line = title' ++ sep ++ desc' -> length title <= length title') /\
     split_title_desc line = Ok (strip title, Some (strip desc))).
Proof.
  unfold split_title_desc.
  destruct (first_separator separators line)
    as [F|(before & sep & after & E & F & C)].
  - left; split; [assumption | now apply split_on_none].
  - right.
    assert (Hne : sep <> []).
    { pose proof separators_nonempty as N; rewrite E in N.
      apply Forall_app in N; destruct N as [_ N]; now inversion N. }
    destruct (split_on_first before after sep line F C Hne)
      as (title & desc & El & Hmin & Es).
    exists before, sep, after, title, desc; rewrite E; repeat split; assumption.
Qed.

(** X13. The title that [split_title_desc] returns has no white space
    at either end, and neither has the description when there is one. *)
Theorem split_title_desc_trimmed (line : str) :
  exists title desc,
    split_title_desc line = Ok (title, desc) /\
    trimmed title /\
    match desc with
    | Some d => trimmed d
    | None => True
    end.
Proof.
  unfold split_title_desc.
  destruct (first_separator separators line)
    as [F|(before & sep & after & E & F & C)].
  - exists (strip line), None; split; [now apply split_on_none|].
    split; [apply strip_trimmed | exact I].
  - assert (Hne : sep <> []).
    { pose proof separators_nonempty as N; rewrite E in N.
      apply Forall_app in N; destruct N as [_ N]; now inversion N. }
    destruct (split_on_first before after sep line F C Hne)
      as (title & desc & _ & _ & Es).
    exists (strip title), (Some (strip desc)); rewrite E; split; [assumption|].
    split; apply strip_trimmed.
Qed.

(** ** [parse_complex_result] *)

Lemma match_here_groups re :
  forall prev s gs rest,
    match_here re prev s = Some (gs, rest) -> length gs = length re.
Proof.
  assert (G : forall p k n,
    (forall prev s gs rest, k prev s = Some (gs, rest) -> length gs = n) ->
    forall s prev gs rest,
      greedy p k prev s = Some (gs, rest) -> length gs = S n).
  { intros p k n Hk; induction s as [|c t IH]; intros prev gs rest; simpl.
    - intros E; apply push_Some in E; destruct E as (gs' & E & ->).
      simpl; f_equal; eapply Hk; eassumption.
    - destruct (p c).
      + intros E; apply or_else_Some in E; destruct E as [E|E].
        * apply extend_Some in E; destruct E as (m & gs' & E & ->).
          now apply IH in E.
        * apply push_Some in E; destruct E as (gs' & E & ->).
          simpl; f_equal; eapply Hk; eassumption.
      + intros E; apply push_Some in E; destruct E as (gs' & E & ->).
        simpl; f_equal; eapply Hk; eassumption. }
  induction re as [|a re IH]; intros prev s gs rest; simpl.
  - now intros [= <- _].
  - destruct a as [p q|].
    + destruct q.
      * destruct s as [|c t]; [discriminate|].
        destruct (p c); [|discriminate].
        intros E; apply push_Some in E; destruct E as (gs' & E & ->).
        simpl; f_equal; eapply IH; eassumption.
      * assert (Hskip : push [] (match_here re prev s) = Some (gs, rest) ->
                        length gs = S (length re)).
        { intros E; apply push_Some in E; destruct E as (gs' & E & ->).
          simpl; f_equal; eapply IH; eassumption. }
        destruct s as [|c t]; [exact Hskip|].
        destruct (p c); [|exact Hskip].
        intros E; apply or_else_Some in E; destruct E as [E|E]; [|auto].
        apply push_Some in E; destruct E as (gs' & E & ->).
        simpl; f_equal; eapply IH; eassumption.
      * apply G; exact IH.
      * destruct s as [|c t]; [discriminate|].
        destruct (p c); [|discriminate].
        intros E; apply extend_Some in E; destruct E as (m & gs' & E & ->).
        apply (G p _ _ IH) in E; simpl in *; exact E.
    + destruct (at_boundary prev s); [|discriminate].
      intros E; apply push_Some in E; destruct E as (gs' & E & ->).
      simpl; f_equal; eapply IH; eassumption.
Qed.

Definition rest_of_line : atom :=
  Class (fun c => negb (N.eqb c newline)) Star.

Definition line_group (gs : list str) : Prop :=
  gs <> [] /\ Forall (fun c => c <> newline) (last gs []).

Lemma line_group_cons g gs : line_group gs -> line_group (g :: gs).
Proof.
  intros [Hne F]; split; [discriminate|].
  destruct gs as [|g' gs']; [congruence | exact F].
Qed.

(** The group of the label pattern holds no line feed. *)
Lemma match_rest_of_line re :
  forall prev s gs rest,
    match_here (re ++ [rest_of_line]) prev s = Some (gs, rest) ->
    line_group gs.
Proof.
  induction re as [|a re IH]; intros prev s gs rest; cbn [app].
  - unfold rest_of_line; cbn [match_here]; intros E.
    apply (ImageIdeaGeneratorMore.greedy_run _ _ (fun gs => gs = [])) in E.
    + destruct E as (m & gs' & -> & F & ->); split; [discriminate|].
      cbn [last]; eapply Forall_impl; [|exact F].
      intros c Hc ->; unfold newline in Hc; discriminate Hc.
    + intros ? ? ? ?; cbn [match_here]; now intros [= <- _].
  - cbn [match_here]; destruct a as [p q|].
    + destruct q.
      * destruct s as [|c t]; [discriminate|].
        destruct (p c); [|discriminate].
        intros E; apply push_Some in E; destruct E as (gs' & E & ->).
        apply line_group_cons; eapply IH; eassumption.
      * assert (Hskip : push [] (match_here (re ++ [rest_of_line]) prev s)
                          = Some (gs, rest) -> line_group gs).
        { intros E; apply push_Some in E; destruct E as (gs' & E & ->).
          apply line_group_cons; eapply IH; eassumption. }
        destruct s as [|c t]; [exact Hskip|].
        destruct (p c); [|exact Hskip].
        intros E; apply or_else_Some in E; destruct E as [E|E]; [|auto].
        apply push_Some in E; destruct E as (gs' & E & ->).
        apply line_group_cons; eapply IH; eassumption.
      * intros E.
        apply (ImageIdeaGeneratorMore.greedy_run _ _ line_group) in E.
        -- destruct E as (m & gs' & -> & _ & Q); now apply line_group_cons.
        -- exact IH.
      * destruct s as [|c t]; [discriminate|].
        destruct (p c); [|discriminate].
        intros E; apply extend_Some in E; destruct E as (m & gs' & E & ->).
        apply (ImageIdeaGeneratorMore.greedy_run _ _ line_group) in E.
        -- destruct E as (m' & gs'' & [= -> ->] & _ & Q); now apply line_group_cons.
        -- exact IH.
    + destruct (at_boundary prev s); [|discriminate].
      intros E; apply push_Some in E; destruct E as (gs' & E & ->).
      apply line_group_cons; eapply IH; eassumption.
Qed.

Lemma occurs_trans (a b c : str) : occurs a b -> occurs b c -> occurs a c.
Proof.
  intros (p1 & q1 & ->) (p2 & q2 & ->).
  exists (p2 ++ p1), (q1 ++ q2); now rewrite <- !app_assoc.
Qed.

Lemma occurs_In (a b : str) (x : char) : occurs a b -> In x a -> In x b.
Proof.
  intros (p & q & ->) I; apply in_or_app; right; apply in_or_app; now left.
Qed.

Lemma last_in_concat (gs : list str) :
  gs <> [] -> occurs (last gs []) (concat gs).
Proof.
  intros Hne; rewrite (app_removelast_last [] Hne) at 2.
  rewrite concat_app; cbn [concat].
  now exists (concat (removelast gs)), [].
Qed.

(** What a field value is like. *)
Definition field_value (text value : str) : Prop :=
  ~ In newline value /\ trimmed value /\ occurs value text.

Lemma found_value key text gs :
  search (label_re key) (sub marker_re [newline] text) = Some gs ->
  field_value text (strip (last gs [])).
Proof.
  unfold search; intros E.
  apply search_go_Some in E; destruct E as (pre & s' & prev' & rest & Es & M).
  pose proof (match_here_splits _ _ _ _ _ M) as S; unfold splits in S.
  assert (G : line_group gs).
  { unfold label_re in M.
    change [Class (fun c => N.eqb c 58 || isspace c) Star;
            Class (fun c => negb (N.eqb c newline)) Star]
      with ([Class (fun c => N.eqb c 58 || isspace c) Star] ++ [rest_of_line]) in M.
    rewrite app_assoc in M; eapply match_rest_of_line; eassumption. }
  destruct G as [Hne F].
  assert (O : occurs (last gs []) text).
  { apply (sub_go_occurs marker_re _ F text 0 None).
    apply occurs_trans with (concat gs); [now apply last_in_concat|].
    exists pre, rest; fold (sub marker_re [newline] text); now rewrite Es, S. }
  repeat split.
  - intros I; apply (occurs_In _ _ _ (strip_occurs _)) in I.
    rewrite Forall_forall in F; now apply (F newline).
  - apply strip_trimmed.
  - apply strip_trimmed.
  - eapply occurs_trans; [apply strip_occurs | exact O].
Qed.

Lemma setitem_values (P : str -> Prop) (d : dict str) k v :
  P v -> Forall (fun item => P (snd item)) d ->
  Forall (fun item => P (snd item)) (setitem d k v).
Proof.
  intros Pv; induction 1 as [|[k' v'] d Hh Ht IH]; simpl.
  - now repeat constructor.
  - destruct (str_eqb k k'); constructor; assumption.
Qed.

(** X14. Every value that [parse_complex_result] returns is one line
    of the given text at most: it holds no line feed, it has no white
    space at either end, and it is a piece of the text, so the parser
    invents nothing. *)
Theorem parse_complex_result_values (text : str) :
  Forall (fun item => field_value text (snd item)) (parse_complex_result text).
Proof.
  unfold parse_complex_result; cbv zeta.
  set (normal := sub marker_re [newline] text).
  assert (Hf : forall keys d,
    Forall (fun item => field_value text (snd item)) d ->
    Forall (fun item => field_value text (snd item))
           (fold_left (parse_key normal) keys d)).
  { induction keys as [|k keys IH]; intros d Hd; [exact Hd|].
    cbn [fold_left]; apply IH; unfold parse_key.
    destruct (search (label_re k) normal) as [gs|] eqn:E; [|exact Hd].
    apply setitem_values; [|exact Hd].
    now apply found_value with (key := k). }
  apply Hf.
  assert (He : field_value text []).
  { repeat split.
    - intros [].
    - intros c t E; discriminate E.
    - intros t c E; destruct t; discriminate E.
    - now exists [], text. }
  unfold labels; repeat (constructor; [exact He|]); constructor.
Qed.

End WithUnicode.
End PageMore.

(** * More of the generator page and of the settings page *)
Module PageFunctions.
Import Py Re Page.

(** [s.find(sub)] and [s.find(sub, start)] for a start that is not
    negative: the index of the first occurrence, or -1. *)
Definition find (s sub : str) : Z :=
  match partition sub s with
  | Some (before, _) => len before
  | None => (-1)%Z
  end.

Definition find_from (s sub : str) (start : Z) : Z :=
  if (len s <? start)%Z then (-1)%Z
  else
    match partition sub (skipn (Z.to_nat start) s) with
    | Some (before, _) => (start + len before)%Z
    | None => (-1)%Z
    end.

(** An index of a slice, as Python reads it. *)
Definition slice_index {A} (l : list A) (i : Z) : nat :=
  if (i <? 0)%Z then Z.to_nat (len l + i) else Z.to_nat i.

(** [s[a:b]] and [s[a:]] *)
Definition slice {A} (a b : Z) (l : list A) : list A :=
  skipn (slice_index l a) (firstn (slice_index l b) l).

Definition slice_from {A} (a : Z) (l : list A) : list A :=
  skipn (slice_index l a) l.

(** [list(dict.fromkeys(l))]: the members of [l], each at its first
    place. *)
Definition dedupe (l : list str) : list str := set_update [] l.

(** The post of the application, lines 13-28. *)
Record SocialMediaPost := {
  id : option Z;
  text : str;
  hashtags : list str;
  platform : str;
  tone : str;
  content_type : str;
  timestamp : str
}.

(** Lines 804-808 of [settings_page]: the posts counted by platform and
    by tone. *)
Fixpoint count_posts (posts : list SocialMediaPost)
    (platform_counts tone_counts : dict Z) : dict Z * dict Z :=
  match posts with
  | [] => (platform_counts, tone_counts)
  | post :: rest =>
      count_posts rest
        (setitem platform_counts (platform post)
                 (get platform_counts (platform post) 0 + 1)%Z)
        (setitem tone_counts (tone post)
                 (get tone_counts (tone post) 0 + 1)%Z)
  end.

Definition usage_statistics (posts : list SocialMediaPost) : dict Z * dict Z :=
  count_posts posts [] [].

Section WithUnicode.
Context `{Unicode}.

(** Lines 542-548 of [generate_comprehensive_content]: the post of one
    platform, cut out of the answer of the language model. *)
Definition platform_post (ai_content platform : str) : str :=
  if contains platform ai_content then
    let start := find ai_content platform in
    let end_ := find_from ai_content [newline] start in
    if (start <? end_)%Z
    then strip (slice (start + len platform) end_ ai_content)
    else strip (slice_from (start + len platform) ai_content)
  else ai_content.

Fixpoint platform_posts (ai_content : str) (platforms : list str)
    (generated_posts : dict str) : dict str :=
  match platforms with
  | [] => generated_posts
  | platform :: rest =>
      platform_posts ai_content rest
        (setitem generated_posts platform (platform_post ai_content platform))
  end.

(** Lines 571-578: the five image ideas of the templates.  The literals
    are f-strings, so the topic and the tone are already in them when
    the two [replace] calls run. *)
Definition base_ideas (topic tone : str) : list str :=
  [lit "Engaging Group: A high-quality photo of people actively engaging with " ++ topic ++ lit " in a " ++ tone ++ lit " setting, showing real emotions and dynamic interaction. The background should be lively and relevant to the topic, with natural lighting and candid expressions.";
   lit "Modern Minimalist: A modern, minimalist illustration representing " ++ topic ++ lit " and its impact, using bold colors and simple shapes. The design should highlight the core message and be easily shareable on social media.";
   lit "Vivid Infographic: A vibrant infographic showing key facts about " ++ topic ++ lit ", with icons, charts, and concise text. The layout should be visually balanced and easy to read, drawing attention to the most important data.";
   lit "Creative Flat-lay: A creative flat-lay of objects or symbols related to " ++ topic ++ lit ", arranged neatly on a contrasting background. The photo should use top-down perspective and include props that reinforce the message.";
   lit "Dynamic Scene: A dynamic scene showing the benefits of " ++ topic ++ lit " for the audience, with people in action, expressive gestures, and a clear focal point. The setting should be aspirational and relatable."].

Definition template_image_ideas (topic tone : str) : list str :=
  slice_to 5
    (map (fun idea => replace (replace idea (lit "{topic}") topic)
                              (lit "{tone}") tone)
         (base_ideas topic tone)).

(** Lines 675-676: the title and the description of every idea. *)
Definition displayed_ideas (image_ideas : list str)
  : list (result (str * option str)) :=
  map split_title_desc image_ideas.

(** Lines 629-630: the hashtags in the answer of the language model.
    The pattern is a hash sign and one or more word characters. *)
Definition hashtag_re : regex :=
  [Class (N.eqb 35%N) One; Class isword Plus].

Definition llm_hashtags (hashtags_raw : str) : list str :=
  slice_to 10 (dedupe (findall hashtag_re hashtags_raw)).

(** Lines 633-642: the hashtags without the language model.
    [str_title] is [str.title] on any text, [rnd] the draws of
    [random.sample]. *)
Variable str_title : str -> str.





End WithUnicode.
End PageFunctions.

(** * The further page functions: the properties *)
Module PageFunctionsFacts.
Import Py PyFacts DictFacts SetFacts Re ReFacts Page PageFacts PageMore.
Import PageFunctions.

(** ** The usage statistics *)

(** The loop of lines 806-808 for one of the two dictionaries. *)
Fixpoint tally (key : SocialMediaPost -> str) (posts : list SocialMediaPost)
    (counts : dict Z) : dict Z :=
  match posts with
  | [] => counts
  | post :: rest =>
      tally key rest (setitem counts (key post) (get counts (key post) 0 + 1)%Z)
  end.

Lemma count_posts_tally posts :
  forall pc tc,
    count_posts posts pc tc = (tally platform posts pc, tally tone posts tc).
Proof.
  induction posts as [|post rest IH]; intros pc tc; [reflexivity|].
  cbn [count_posts tally]; apply IH.
Qed.

(** The number of posts with the value [k] of [key]. *)
Definition count_by (key : SocialMediaPost -> str) (k : str)
    (posts : list SocialMediaPost) : Z :=
  len (filter (fun post => str_eqb (key post) k) posts).

Definition sum_counts (counts : dict Z) : Z :=
  fold_right Z.add 0%Z (map snd counts).

Lemma get_setitem_eq (d : dict Z) k v default : get (setitem d k v) k default = v.
Proof. unfold get; now rewrite lookup_setitem_eq. Qed.

Lemma get_setitem_neq (d : dict Z) k k' v default :
  k <> k' -> get (setitem d k v) k' default = get d k' default.
Proof. intros N; unfold get; now rewrite lookup_setitem_neq. Qed.

Lemma sum_setitem (d : dict Z) k v :
  (sum_counts (setitem d k v) = sum_counts d - get d k 0 + v)%Z.
Proof.
  unfold sum_counts, get; induction d as [|[k' v'] d IH]; simpl; [lia|].
  destruct (str_eqb k k'); simpl; [lia|].
  rewrite IH; destruct (lookup d k); lia.
Qed.

Lemma tally_get key posts :
  forall counts k,
    (get (tally key posts counts) k 0 = get counts k 0 + count_by key k posts)%Z.
Proof.
  unfold count_by; induction posts as [|post rest IH]; intros counts k.
  - cbn; lia.
  - cbn [tally filter]; rewrite IH.
    destruct (str_eqb (key post) k) eqn:E.
    + apply str_eqb_eq in E; rewrite E, get_setitem_eq.
      unfold len; cbn [length]; lia.
    + apply str_eqb_neq in E; rewrite get_setitem_neq by assumption; lia.
Qed.

Lemma tally_lookup key posts :
  forall counts k,
    lookup (tally key posts counts) k = None <->
    lookup counts k = None /\ count_by key k posts = 0%Z.
Proof.
  unfold count_by; induction posts as [|post rest IH]; intros counts k.
  - cbn; tauto.
  - cbn [tally filter]; rewrite IH.
    destruct (str_eqb (key post) k) eqn:E.
    + apply str_eqb_eq in E; rewrite E, lookup_setitem_eq.
      unfold len; cbn [length]; split; [intros [C _]; discriminate | lia].
    + apply str_eqb_neq in E; rewrite lookup_setitem_neq by assumption; tauto.
Qed.

Lemma tally_sum key posts :
  forall counts,
    sum_counts (tally key posts counts) = (sum_counts counts + len posts)%Z.
Proof.
  induction posts as [|post rest IH]; intros counts.
  - unfold len; cbn [tally length]; lia.
  - cbn [tally]; rewrite IH, sum_setitem; unfold len; cbn [length]; lia.
Qed.

(** X15. The usage statistics are right: every platform is listed with
    the number of posts that have it, a platform without posts is not
    listed, and the numbers add up to the number of posts; the same
    holds for the tones. *)
Theorem usage_statistics_counts (posts : list SocialMediaPost) :
  let platform_counts := fst (usage_statistics posts) in
  let tone_counts := snd (usage_statistics posts) in
  (forall p, get platform_counts p 0%Z = count_by platform p posts) /\
  (forall p, lookup platform_counts p = None <-> count_by platform p posts = 0%Z) /\
  sum_counts platform_counts = len posts /\
  (forall t, get tone_counts t 0%Z = count_by tone t posts) /\
  (forall t, lookup tone_counts t = None <-> count_by tone t posts = 0%Z) /\
  sum_counts tone_counts = len posts.
Proof.
  unfold usage_statistics; rewrite count_posts_tally; cbn [fst snd].
  repeat split.
  - intros p; now rewrite tally_get.
  - rewrite tally_lookup; tauto.
  - rewrite tally_lookup; tauto.
  - now rewrite tally_sum.
  - intros t; now rewrite tally_get.
  - rewrite tally_lookup; tauto.
  - rewrite tally_lookup; tauto.
  - now rewrite tally_sum.
Qed.

Section WithUnicode.
Context `{Unicode}.

(** ** The image ideas of the templates *)

Lemma replace_go_prefix (c0 : char) (old new pre s : str) :
  Forall (fun c => c <> c0) pre ->
  replace_go (c0 :: old) new 0 (pre ++ s) =
  pre ++ replace_go (c0 :: old) new 0 s.
Proof.
  induction 1 as [|c pre Hc _ IH]; [reflexivity|].
  rewrite <- !app_comm_cons; cbn [replace_go startswith].
  apply not_eq_sym in Hc; apply N.eqb_neq in Hc; rewrite Hc; cbn [andb].
  now rewrite IH.
Qed.

Definition no_lbrace (s : str) : bool := forallb (fun c => negb (N.eqb c lbrace)) s.

Lemma replace_field_prefix (name new pre s : str) :
  no_lbrace pre = true ->
  replace (pre ++ s) (lbrace :: name) new = pre ++ replace s (lbrace :: name) new.
Proof.
  intros Hp; unfold replace; apply replace_go_prefix.
  apply Forall_forall; intros c Hc.
  unfold no_lbrace in Hp; rewrite forallb_forall in Hp.
  specialize (Hp c Hc); apply negb_true_iff, N.eqb_neq in Hp; exact Hp.
Qed.

(** The headings of the five templates. *)
Definition idea_titles : list str :=
  [lit "Engaging Group"; lit "Modern Minimalist"; lit "Vivid Infographic";
   lit "Creative Flat-lay"; lit "Dynamic Scene"].

Lemma headed_idea (heading body : str) (topic tone : str) :
  no_lbrace (heading ++ lit ": ") = true ->
  (forall rest,
     partition (lit ": ") ((heading ++ lit ": ") ++ rest) = Some (heading, rest)) ->
  exists desc,
    split_title_desc
      (replace (replace ((heading ++ lit ": ") ++ body) (lit "{topic}") topic)
               (lit "{tone}") tone)
    = Ok (strip heading, Some desc).
Proof.
  intros Hb HP.
  change (lit "{topic}") with (lbrace :: lit "topic}").
  change (lit "{tone}") with (lbrace :: lit "tone}").
  rewrite !replace_field_prefix by assumption.
  set (rest := replace (replace body _ topic) _ tone).
  exists (strip rest).
  unfold split_title_desc, separators; cbn [split_on].
  assert (C : contains (lit ": ") ((heading ++ lit ": ") ++ rest) = true).
  { apply contains_occurs; exists heading, rest; now rewrite <- app_assoc. }
  rewrite C; unfold split1.
  change (lit ": ") with [58%N; 32%N] in *.
  rewrite (HP rest); reflexivity.
Qed.

(** X16. Without the language model the page shows five image ideas,
    and their titles are the five headings of the templates, whatever
    the topic and the tone hold: the first colon and space of an idea
    are those after its heading, and the colon separator comes first. *)
Theorem template_ideas_titles (topic tone : str) :
  exists d1 d2 d3 d4 d5,
    displayed_ideas (template_image_ideas topic tone) =
    [Ok (strip (lit "Engaging Group"), Some d1);
     Ok (strip (lit "Modern Minimalist"), Some d2);
     Ok (strip (lit "Vivid Infographic"), Some d3);
     Ok (strip (lit "Creative Flat-lay"), Some d4);
     Ok (strip (lit "Dynamic Scene"), Some d5)].
Proof.
  unfold template_image_ideas, base_ideas.
  rewrite slice_to_all by (cbn; lia).
  cbn [map displayed_ideas].
  destruct (headed_idea (lit "Engaging Group")
    (lit "A high-quality photo of people actively engaging with " ++ topic ++ lit " in a " ++ tone ++ lit " setting, showing real emotions and dynamic interaction. The background should be lively and relevant to the topic, with natural lighting and candid expressions.")
    topic tone) as (d1 & E1); [reflexivity | intros; reflexivity |].
  destruct (headed_idea (lit "Modern Minimalist")
    (lit "A modern, minimalist illustration representing " ++ topic ++ lit " and its impact, using bold colors and simple shapes. The design should highlight the core message and be easily shareable on social media.")
    topic tone) as (d2 & E2); [reflexivity | intros; reflexivity |].
  destruct (headed_idea (lit "Vivid Infographic")
    (lit "A vibrant infographic showing key facts about " ++ topic ++ lit ", with icons, charts, and concise text. The layout should be visually balanced and easy to read, drawing attention to the most important data.")
    topic tone) as (d3 & E3); [reflexivity | intros; reflexivity |].
  destruct (headed_idea (lit "Creative Flat-lay")
    (lit "A creative flat-lay of objects or symbols related to " ++ topic ++ lit ", arranged neatly on a contrasting background. The photo should use top-down perspective and include props that reinforce the message.")
    topic tone) as (d4 & E4); [reflexivity | intros; reflexivity |].
  destruct (headed_idea (lit "Dynamic Scene")
    (lit "A dynamic scene showing the benefits of " ++ topic ++ lit " for the audience, with people in action, expressive gestures, and a clear focal point. The setting should be aspirational and relatable.")
    topic tone) as (d5 & E5); [reflexivity | intros; reflexivity |].
  exists d1, d2, d3, d4, d5.
  unfold displayed_ideas; cbn [map].
  rewrite <- E1, <- E2, <- E3, <- E4, <- E5.
  reflexivity.
Qed.

(** ** The hashtags of the page *)

Lemma dedupe_NoDup (l : list str) : NoDup (dedupe l).
Proof. apply set_update_NoDup; constructor. Qed.

Lemma dedupe_In (l : list str) (x : str) : In x (dedupe l) <-> In x l.
Proof. unfold dedupe; rewrite set_update_In; cbn [In]; tauto. Qed.


Lemma firstn_NoDup {A} (n : nat) (l : list A) : NoDup l -> NoDup (firstn n l).
Proof.
  intros ND; rewrite <- (firstn_skipn n l) in ND.
  now apply NoDup_app_remove_r in ND.
Qed.

Lemma firstn_incl {A} (n : nat) (l : list A) : incl (firstn n l) l.
Proof.
  intros y Hy; rewrite <- (firstn_skipn n l); apply in_or_app; now left.
Qed.

Lemma hashtag_re_match prev s gs rest :
  match_here hashtag_re prev s = Some (gs, rest) ->
  exists w, concat gs = 35%N :: w /\ w <> [] /\
            Forall (fun c => isword c = true) w.
Proof.
  unfold hashtag_re; cbn [match_here].
  destruct s as [|c t]; [discriminate|].
  destruct (N.eqb 35 c) eqn:E; [|discriminate].
  apply N.eqb_eq in E; subst c.
  intros M; apply push_Some in M; destruct M as (gs1 & M & ->).
  destruct t as [|c t]; [discriminate|].
  destruct (isword c) eqn:W; [|discriminate].
  apply extend_Some in M; destruct M as (m & gs2 & M & ->).
  apply (ImageIdeaGeneratorMore.greedy_run isword _ (fun gs => gs = [])) in M.
  - destruct M as (m' & gs' & [= -> ->] & F & ->).
    exists (c :: m'); cbn [concat app]; rewrite app_nil_r.
    repeat split; [discriminate | now constructor].
  - intros ? ? ? ?; cbn [match_here]; now intros [= <- _].
Qed.

(** X17. The hashtags taken from the answer of the language model: at
    most ten, all different, each a hash sign followed by one or more
    word characters, and each a piece of the answer. *)
Theorem llm_hashtags_spec (hashtags_raw : str) :
  NoDup (llm_hashtags hashtags_raw) /\
  (len (llm_hashtags hashtags_raw) <= 10)%Z /\
  Forall (fun tag =>
            occurs tag hashtags_raw /\
            exists w, tag = 35%N :: w /\ w <> [] /\
                      Forall (fun c => isword c = true) w)
         (llm_hashtags hashtags_raw).
Proof.
  unfold llm_hashtags; rewrite slice_to_nonneg by lia.
  repeat split.
  - apply firstn_NoDup, dedupe_NoDup.
  - unfold len; rewrite length_firstn; lia.
  - apply Forall_forall; intros tag I.
    apply firstn_incl in I; apply (proj1 (dedupe_In _ _)) in I; split.
    + now apply findall_occurs in I.
    + revert tag I; apply Forall_forall.
      apply ImageIdeaGeneratorMore.findall_go_Forall.
      intros prev s gs rest M; eapply hashtag_re_match; eassumption.
Qed.

Section Fallback.
Variable str_title : str -> str.



End Fallback.

(** ** The post of a platform in the answer of the language model *)

Lemma contains_single (c : char) (s : str) :
  contains [c] s = false -> ~ In c s.
Proof.
  induction s as [|x s IH]; cbn [contains startswith]; [tauto|].
  rewrite andb_true_r; intros E; apply orb_false_elim in E; destruct E as [E C].
  apply N.eqb_neq in E; intros [->|I]; [congruence | now apply IH].
Qed.

Lemma prefix_before (c : char) (p : str) :
  Forall (fun x => x <> c) p ->
  forall b x y, p ++ b = x ++ c :: y -> exists x', x = p ++ x'.
Proof.
  induction 1 as [|a p Ha _ IH]; intros b x y E; [now exists x|].
  destruct x as [|a' x]; simpl in E; injection E as Ehd Etl; [congruence|].
  subst a'; destruct (IH _ _ _ Etl) as (x' & ->); now exists x'.
Qed.

Lemma skipn_exact {A} (a r : list A) : skipn (length a) (a ++ r) = r.
Proof. induction a; simpl; auto. Qed.

Lemma firstn_exact {A} (a r : list A) : firstn (length a) (a ++ r) = a.
Proof. induction a; simpl; [now destruct r | now f_equal]. Qed.

Lemma slice_index_nat {A} (l : list A) (n : nat) :
  slice_index l (Z.of_nat n) = n.
Proof.
  unfold slice_index.
  destruct (Z.of_nat n <? 0)%Z eqn:E; [apply Z.ltb_lt in E; lia | apply Nat2Z.id].
Qed.

(** X19. When the answer of the language model names a platform, the
    post of the platform is the rest of the line after the first
    occurrence of the name, trimmed: a piece of the answer without a
    line feed. *)
Theorem platform_post_line (ai_content platform : str) :
  platform <> [] ->
  ~ In newline platform ->
  contains platform ai_content = true ->
  exists before line after,
    ai_content = before ++ platform ++ line ++ after /\
    (forall before' rest,
       ai_content = before' ++ platform ++ rest ->
       length before <= length before') /\
    ~ In newline line /\
    (after = [] \/ exists rest, after = newline :: rest) /\
    platform_post ai_content platform = strip line.
Proof.
  intros Hne Hnl Hc; unfold platform_post, find, find_from; rewrite Hc.
  destruct (partition platform ai_content) as [[a b]|] eqn:P;
    [|apply partition_None in P; congruence].
  apply partition_Some in P; destruct P as [Ea Hmin].
  assert (Hs : (len ai_content <? len a)%Z = false).
  { apply Z.ltb_ge; rewrite Ea; unfold len; rewrite length_app; lia. }
  assert (Hsk : skipn (Z.to_nat (len a)) ai_content = platform ++ b).
  { unfold len; rewrite Nat2Z.id, Ea; apply skipn_exact. }
  rewrite Hs, Hsk.
  assert (Hidx : (len a + len platform)%Z = Z.of_nat (length (a ++ platform))).
  { unfold len; rewrite length_app; lia. }
  assert (Hp : Forall (fun x => x <> newline) platform).
  { apply Forall_forall; intros x Hx ->; contradiction. }
  destruct (partition [newline] (platform ++ b)) as [[x y]|] eqn:Q.
  - apply partition_Some in Q; destruct Q as [Ex Hx].
    cbn [app] in Ex.
    destruct (prefix_before newline platform Hp b x y Ex) as (x' & ->).
    rewrite <- app_assoc in Ex; apply app_inv_head in Ex; subst b.
    assert (Hlt : (len a <? len a + len (platform ++ x'))%Z = true).
    { apply Z.ltb_lt; unfold len; rewrite length_app.
      destruct platform; [congruence | simpl; lia]. }
    rewrite Hlt.
    exists a, x', (newline :: y); repeat split.
    + exact Ea.
    + exact Hmin.
    + intros I; apply in_split in I; destruct I as (x1 & x2 & ->).
      specialize (Hx (platform ++ x1) (x2 ++ newline :: y)).
      rewrite !length_app in Hx; cbn [length] in Hx.
      assert (platform ++ (x1 ++ newline :: x2) ++ newline :: y =
              (platform ++ x1) ++ [newline] ++ x2 ++ newline :: y)
        by (now rewrite <- !app_assoc).
      specialize (Hx H0); lia.
    + right; now exists y.
    + f_equal; unfold slice.
      assert (He : (len a + len (platform ++ x'))%Z
                   = Z.of_nat (length (a ++ platform ++ x'))).
      { unfold len; rewrite !length_app; lia. }
      rewrite Hidx, He, !slice_index_nat, Ea.
      replace (a ++ platform ++ x' ++ newline :: y)
        with ((a ++ platform ++ x') ++ newline :: y)
        by (now rewrite <- !app_assoc).
      rewrite firstn_exact.
      replace (a ++ platform ++ x') with ((a ++ platform) ++ x')
        by (now rewrite <- app_assoc).
      now rewrite skipn_exact.
  - apply partition_None in Q.
    assert (Hlt : (len a <? -1)%Z = false) by (apply Z.ltb_ge; unfold len; lia).
    rewrite Hlt.
    exists a, b, []; repeat split.
    + now rewrite app_nil_r.
    + exact Hmin.
    + intros I; apply contains_single in Q; apply Q, in_or_app; now right.
    + now left.
    + f_equal; unfold slice_from.
      rewrite Hidx, slice_index_nat, Ea.
      replace (a ++ platform ++ b) with ((a ++ platform) ++ b)
        by (now rewrite <- app_assoc).
      now rewrite skipn_exact.
Qed.

End WithUnicode.
End PageFunctionsFacts.

(** * The image ideas in the answer of the language model

    Line 568 and lines 661-668 of [generate_comprehensive_content].
    [isalpha] is [str.isalpha] on one character. *)
Module IdeaLines.
Import Py Re.
Section WithUnicode.
Context `{Unicode}.
Variable isalpha : char -> bool.

(** [s.split(sep)] for a separator of one character *)
Fixpoint split_char (sep : char) (s : str) : list str :=
  match s with
  | [] => [[]]
  | c :: t =>
      if N.eqb c sep then [] :: split_char sep t
      else
        match split_char sep t with
        | l :: ls => (c :: l) :: ls
        | [] => [[c]]
        end
  end.

(** [s.split()]: the runs of characters that are not white space;
    [cur] is the run being read, in reverse. *)
Fixpoint split_words (cur : str) (s : str) : list str :=
  match s with
  | [] => match cur with [] => [] | _ => [rev cur] end
  | c :: t =>
      if isspace c
      then match cur with
           | [] => split_words [] t
           | _ => rev cur :: split_words [] t
           end
      else split_words (c :: cur) t
  end.

Definition in_chars (chars : str) (c : char) : bool := existsb (N.eqb c) chars.

(** [s.lstrip(chars)] and [s.strip(chars)] *)
Definition lstrip_chars (chars s : str) : str := dropwhile (in_chars chars) s.

Definition strip_chars (chars s : str) : str :=
  rev (dropwhile (in_chars chars) (rev (dropwhile (in_chars chars) s))).

(** Line 568. *)
Definition llm_image_ideas (image_ideas_raw : str) : list str :=
  map (strip_chars (lit " .-"))
      (filter (fun line => truthy (strip line) && existsb isalpha line)
              (split_char newline image_ideas_raw)).

(** Lines 661-663. *)
Definition is_idea_line (line : str) : bool :=
  (3 <=? len (split_words [] line))%Z && existsb isalpha line.

(** Lines 665-668. *)
Fixpoint clean_ideas (image_ideas : list str) (cleaned_ideas : list str)
  : list str :=
  match image_ideas with
  | [] => cleaned_ideas
  | idea :: rest =>
      let cleaned := strip (lstrip_chars (lit "0123456789. -") idea) in
      if is_idea_line cleaned
      then clean_ideas rest (cleaned_ideas ++ [cleaned])
      else clean_ideas rest cleaned_ideas
  end.

Definition shown_ideas (image_ideas_raw : str) : list str :=
  clean_ideas (llm_image_ideas image_ideas_raw) [].

End WithUnicode.
End IdeaLines.

Module IdeaLinesFacts.
Import Py PyFacts Re PageMore IdeaLines.
Section WithUnicode.
Context `{Unicode}.
Variable isalpha : char -> bool.

Lemma split_char_spec (sep : char) (s : str) :
  exists l ls,
    split_char sep s = l :: ls /\
    (exists r, s = l ++ r) /\
    Forall (fun line => ~ In sep line /\ occurs line s) (l :: ls).
Proof.
  induction s as [|c t IH]; cbn [split_char].
  - exists [], []; repeat split; [now exists [] | ].
    constructor; [|constructor]; split; [intros [] | now exists [], []].
  - destruct IH as (l & ls & E & (r & Er) & F).
    assert (Ft : Forall (fun line => ~ In sep line /\ occurs line (c :: t))
                        (l :: ls)).
    { eapply Forall_impl; [|exact F].
      intros line [N (pre & post & ->)]; split; [exact N|].
      now exists (c :: pre), post. }
    rewrite E; destruct (N.eqb c sep) eqn:Q.
    + exists [], (l :: ls); repeat split; [now exists (c :: t) |].
      constructor; [|exact Ft]; split; [intros [] | now exists [], (c :: t)].
    + apply N.eqb_neq in Q.
      exists (c :: l), ls; repeat split; [exists r; now rewrite Er |].
      pose proof (Forall_inv Ft) as [Nl _].
      pose proof (Forall_inv_tail Ft) as Fls.
      constructor; [|exact Fls]; split.
      * intros [C|C]; [congruence | contradiction].
      * exists [], r; now rewrite Er.
Qed.

Lemma split_char_lines (sep : char) (s : str) :
  Forall (fun line => ~ In sep line /\ occurs line s) (split_char sep s).
Proof.
  destruct (split_char_spec sep s) as (l & ls & -> & _ & F); exact F.
Qed.

Lemma lstrip_chars_occurs chars s : occurs (lstrip_chars chars s) s.
Proof.
  unfold lstrip_chars.
  destruct (dropwhile_split (in_chars chars) s) as (pre & E).
  exists pre, []; now rewrite app_nil_r.
Qed.

Lemma strip_chars_occurs chars s : occurs (strip_chars chars s) s.
Proof.
  unfold strip_chars.
  destruct (dropwhile_split (in_chars chars) s) as (pre & E).
  set (a := dropwhile (in_chars chars) s) in *.
  destruct (dropwhile_split (in_chars chars) (rev a)) as (pre' & E').
  set (b := dropwhile (in_chars chars) (rev a)) in *.
  exists pre, (rev pre').
  rewrite E at 1; f_equal.
  rewrite <- (rev_involutive a), E', rev_app_distr; reflexivity.
Qed.

Lemma clean_ideas_spec (P : str -> Prop) ideas :
  (forall idea, In idea ideas ->
     let cleaned := strip (lstrip_chars (lit "0123456789. -") idea) in
     is_idea_line isalpha cleaned = true -> P cleaned) ->
  forall acc, Forall P acc -> Forall P (clean_ideas isalpha ideas acc).
Proof.
  induction ideas as [|idea rest IH]; intros Hp acc Ha; cbn [clean_ideas]; [exact Ha|].
  cbv zeta.
  destruct (is_idea_line isalpha (strip (lstrip_chars (lit "0123456789. -") idea)))
    eqn:E.
  - apply IH; [intros i Hi; apply Hp; now right|].
    apply Forall_app; split; [exact Ha|].
    constructor; [|constructor]; apply Hp; [now left | exact E].
  - apply IH; [intros i Hi; apply Hp; now right | exact Ha].
Qed.

(** X20. Every image idea that the page shows from the answer of the
    language model is a piece of one line of the answer, without white
    space at either end; it has at least three words and a letter. *)
Theorem shown_ideas_spec (image_ideas_raw : str) :
  Forall (fun idea =>
            occurs idea image_ideas_raw /\
            ~ In newline idea /\
            trimmed idea /\
            (3 <= len (split_words [] idea))%Z /\
            exists c, In c idea /\ isalpha c = true)
         (shown_ideas isalpha image_ideas_raw).
Proof.
  unfold shown_ideas; apply clean_ideas_spec; [|constructor].
  intros idea I cleaned E.
  unfold llm_image_ideas in I; apply in_map_iff in I.
  destruct I as (line & <- & I); apply filter_In in I; destruct I as [I _].
  pose proof (split_char_lines newline image_ideas_raw) as F.
  rewrite Forall_forall in F; destruct (F line I) as [Nl Ol].
  assert (Oc : occurs cleaned line).
  { unfold cleaned.
    eapply occurs_trans; [apply strip_occurs|].
    eapply occurs_trans; [apply lstrip_chars_occurs | apply strip_chars_occurs]. }
  unfold is_idea_line in E; apply andb_prop in E; destruct E as [W A].
  apply Z.leb_le in W; apply existsb_exists in A.
  repeat split.
  - eapply occurs_trans; eassumption.
  - intros C; apply Nl; eapply occurs_In; eassumption.
  - apply strip_trimmed.
  - apply strip_trimmed.
  - exact W.
  - exact A.
Qed.

End WithUnicode.
End IdeaLinesFacts.

(** * The further properties on ASCII text *)
Module MoreExamples.
Import Py PyFacts Re HashtagSuggester HashtagSuggesterFacts.
Import Examples.
#[local] Existing Instance AsciiTables.tables.

Definition product_text : str := lit "Our new technology product".

Lemma suggest_hashtags_distinct_witness :
  exists hashtags,
    suggest_hashtags 2 hash_length draws product_text 5 = Ok hashtags /\
    NoDup hashtags /\
    Forall (fun tag =>
              (In tag (category_matches product_text) \/
               In tag trending_hashtags \/
               In tag generic_hashtags) /\
              exists rest, tag = 35%N :: rest)
           hashtags.
Proof.
  apply (HashtagSuggesterMore.suggest_hashtags_distinct 0).
  vm_compute; split; discriminate.
Defined.

Lemma suggest_hashtags_padding_witness :
  exists hashtags,
    suggest_hashtags 2 hash_length draws product_text 5 = Ok hashtags /\
    ((5 <= len (suggested draws product_text))%Z ->
     Forall (fun tag => In tag (suggested draws product_text) /\
                        ~ In tag generic_hashtags) hashtags) /\
    ((len (suggested draws product_text) <= 5)%Z ->
     Forall (fun tag => In tag hashtags) (suggested draws product_text)).
Proof.
  apply (HashtagSuggesterMore.suggest_hashtags_padding 0).
  vm_compute; split; discriminate.
Defined.

Lemma suggest_hashtags_category_witness :
  exists returned,
    suggest_hashtags 2 hash_length draws product_text 5 = Ok returned /\
    incl (firstn 3 [lit "#tech"; lit "#innovation"; lit "#digital";
                    lit "#AI"; lit "#future"]) returned.
Proof.
  apply (HashtagSuggesterMore.suggest_hashtags_category 0) with
    (category := lit "technology").
  - cbn [hashtag_database In]; tauto.
  - vm_compute; reflexivity.
  - vm_compute; split; discriminate.
Defined.

Lemma suggest_hashtags_negative_witness :
  exists hashtags,
    suggest_hashtags 1 hash_length draws product_text (-1) = Ok hashtags /\
    len hashtags = Z.max 0 (len (suggested draws product_text) + 2 * -1) /\
    incl hashtags (suggested draws product_text).
Proof.
  apply (HashtagSuggesterMore.suggest_hashtags_negative 0).
  reflexivity.
Defined.

Definition answer : str :=
  lit "Twitter: Coffee time!  " ++ [newline] ++ lit "Facebook: Come by.".

Lemma platform_post_line_witness :
  exists before line after,
    answer = before ++ lit "Twitter" ++ line ++ after /\
    (forall before' rest,
       answer = before' ++ lit "Twitter" ++ rest ->
       length before <= length before') /\
    ~ In newline line /\
    (after = [] \/ exists rest, after = newline :: rest) /\
    PageFunctions.platform_post answer (lit "Twitter") = strip line.
Proof.
  apply PageFunctionsFacts.platform_post_line.
  - discriminate.
  - cbn; intros C; repeat (destruct C as [C|C]; [discriminate C|]); exact C.
  - reflexivity.
Defined.

End MoreExamples.
